(** * Midpoint-rule integrator (Assignments/HW3/main.cpp)

    A shallow embedding of [numericalIntegration] and of the driver [main],
    together with the properties stated about them.

    Numeric model.  The C++ type [float] is IEEE-754 binary32.  It is modelled
    by the Standard Library's executable specification [spec_float] at
    precision 24 and maximal exponent 128, every operation being rounded to
    nearest-even once (no extended intermediate precision, no fused
    multiply-add).  The type [int] is modelled by [Z]; the bounds of the
    32-bit range are stated where a property depends on them. *)

From Stdlib Require Import ZArith Bool Lia Ascii String List.
From Stdlib Require Import Floats.SpecFloat.
From Equations Require Import Equations.
From ExtLib Require Import Structures.Monad Structures.MonadState.
From ExtLib Require Import Data.Monads.StateMonad.
Import ListNotations.
Import MonadNotation.

Local Open Scope Z_scope.

(** ** The C++ [int] *)

Definition int_min : Z := - 2 ^ 31.
Definition int_max : Z := 2 ^ 31 - 1.
Definition in_int (z : Z) : Prop := int_min <= z <= int_max.

(** ** The C++ [float]: IEEE-754 binary32 *)

Definition float32 : Type := spec_float.

Module F32.

Definition prec : Z := 24.
Definition emax : Z := 128.

Definition add : float32 -> float32 -> float32 := SFadd prec emax.
Definition sub : float32 -> float32 -> float32 := SFsub prec emax.
Definition mul : float32 -> float32 -> float32 := SFmul prec emax.
Definition div : float32 -> float32 -> float32 := SFdiv prec emax.
Definition opp : float32 -> float32 := SFopp.

(** The operator [==] of C++ on floats. *)
Definition eqb : float32 -> float32 -> bool := SFeqb.

(** Conversion [int -> float] (round to nearest, ties to even). *)
Definition of_int (z : Z) : float32 := binary_normalize prec emax z 0 false.

(** The literals [0.0f] and [0.5f], and the value [1.0f]. *)
Definition zero : float32 := S754_zero false.
Definition half : float32 := S754_finite false 8388608 (-24).
Definition one : float32 := S754_finite false 8388608 (-23).

(** [FLT_MAX], the largest finite float. *)
Definition max_float : float32 := S754_finite false 16777215 104.

Definition is_zero (x : float32) : bool :=
  match x with S754_zero _ => true | _ => false end.

Definition is_finite (x : float32) : bool :=
  match x with S754_zero _ | S754_finite _ _ _ => true | _ => false end.

Definition is_nan (x : float32) : bool :=
  match x with S754_nan => true | _ => false end.

(** Narrowing conversion [double -> float] of a binary64 value. *)
Definition of_double (d : spec_float) : float32 :=
  match d with
  | S754_finite s m e => binary_round prec emax s m e
  | _ => d
  end.

End F32.

Declare Scope f32_scope.
Delimit Scope f32_scope with f32.
Infix "+" := F32.add : f32_scope.
Infix "-" := F32.sub : f32_scope.
Infix "*" := F32.mul : f32_scope.
Infix "/" := F32.div : f32_scope.
Notation "- x" := (F32.opp x) : f32_scope.

(** ** The integrator *)

(** [typedef float ( *FuncPtr)(float, int)]: the integrands are assumed to be
    deterministic and free of side effects, hence functions. *)
Definition FuncPtr : Type := float32 -> Z -> float32.

(** The locals of the [for] loop that change: the accumulator [sum], and, as
    an instrument of the model, the arguments of the calls made to [f] so
    far, oldest first. *)
Record loop_state : Type := mk_loop_state {
  sum : float32;
  calls : list (float32 * Z)
}.

(** The midpoint [x = a + (i + 0.5f) * dx] of line 36. *)
Definition midpoint (a dx : float32) (i : Z) : float32 :=
  (a + (F32.of_int i + F32.half) * dx)%f32.

(** One execution of the loop body, lines 36-37. *)
Definition loop_body (f : FuncPtr) (a dx : float32) (intensity : Z)
    (i : Z) (st : loop_state) : loop_state :=
  let x := midpoint a dx i in
  {| sum := (sum st + f x intensity)%f32;
     calls := calls st ++ [(x, intensity)] |}.

(** [for (int i = 0; i < n; ++i) { ... }], entered at index [i].  The
    increment is written in [Z]: [i < n] holds when it runs, so it never
    leaves the range of [int]. *)
Equations? for_loop (f : FuncPtr) (a dx : float32) (n intensity : Z)
    (i : Z) (st : loop_state) : loop_state by wf (Z.to_nat (n - i)) lt :=
  for_loop f a dx n intensity i st with Z_lt_dec i n := {
    | left _ := for_loop f a dx n intensity (i + 1)
                  (loop_body f a dx intensity i st);
    | right _ := st }.
Proof. lia. Qed.

(** What a call of [numericalIntegration] yields: the returned value and the
    calls it made to the integrand. *)
Record integration : Type := mk_integration {
  result : float32;
  evaluations : list (float32 * Z)
}.

Definition numericalIntegration (f : FuncPtr) (a b : float32)
    (n intensity : Z) : integration :=
  let sum0 := F32.zero in
  let dx := ((b - a) / F32.of_int n)%f32 in
  let st := for_loop f a dx n intensity 0 {| sum := sum0; calls := [] |} in
  {| result := (sum st * dx)%f32; evaluations := calls st |}.

(** *** The loop as a relation

    The same loop, with the integrand given by its input/output relation, so
    that an integrand that is not a function of its arguments can be
    expressed.  [loop_exec F a dx n k i st st'] : entered at index [i] in
    state [st], the loop exits in state [st']. *)
Definition integrand_rel : Type := float32 -> Z -> float32 -> Prop.

Definition deterministic (F : integrand_rel) : Prop :=
  forall x k y1 y2, F x k y1 -> F x k y2 -> y1 = y2.

Definition graph (f : FuncPtr) : integrand_rel := fun x k y => y = f x k.

Inductive loop_exec (F : integrand_rel) (a dx : float32) (n intensity : Z) :
    Z -> loop_state -> loop_state -> Prop :=
| loop_exit : forall i st,
    ~ i < n ->
    loop_exec F a dx n intensity i st st
| loop_iter : forall i st y st',
    i < n ->
    F (midpoint a dx i) intensity y ->
    loop_exec F a dx n intensity (i + 1)
      {| sum := (sum st + y)%f32;
         calls := calls st ++ [(midpoint a dx i, intensity)] |} st' ->
    loop_exec F a dx n intensity i st st'.

Definition integration_exec (F : integrand_rel) (a b : float32)
    (n intensity : Z) (r : integration) : Prop :=
  let dx := ((b - a) / F32.of_int n)%f32 in
  exists st,
    loop_exec F a dx n intensity 0 {| sum := F32.zero; calls := [] |} st /\
    r = {| result := (sum st * dx)%f32; evaluations := calls st |}.

(** ** The algorithm as the specification words it *)

(** The indices [from, from + 1, ..., from + count - 1], ascending. *)
Definition indices_from (from : Z) (count : nat) : list Z :=
  map (fun j => from + Z.of_nat j) (seq 0 count).

(** The integers [i] of [[0, n)], ascending. *)
Definition indices (n : Z) : list Z := indices_from 0 (Z.to_nat n).

(** [sum += f(x_i, intensity)] for the indices of [idx], from left to right. *)
Definition accumulate (f : FuncPtr) (a dx : float32) (intensity : Z)
    (s0 : float32) (idx : list Z) : float32 :=
  fold_left (fun s i => (s + f (midpoint a dx i) intensity)%f32) idx s0.

(** [sum += 1.0f], [m] times, from [s0]: what the loop does to [sum] when
    the integrand is the constant [1]. *)
Definition count_up (m : nat) (s0 : float32) : float32 :=
  Nat.iter m (fun s => (s + F32.one)%f32) s0.

Local Open Scope monad_scope.

(** ** The driver *)

(** The four integrands of [libfunctions.a]. *)
Inductive integrand_name : Type := name_f1 | name_f2 | name_f3 | name_f4.

(** What the program is linked with and run on: the C library's [atoi] and
    [atof] (the latter returning a binary64 value), the four integrands, and
    the successive readings of [high_resolution_clock::now()], in ticks. *)
Record platform : Type := mk_platform {
  atoi : string -> Z;
  atof : string -> spec_float;
  f1 : FuncPtr;
  f2 : FuncPtr;
  f3 : FuncPtr;
  f4 : FuncPtr;
  clock : nat -> Z
}.

Definition integrand_of (pf : platform) (g : integrand_name) : FuncPtr :=
  match g with
  | name_f1 => f1 pf
  | name_f2 => f2 pf
  | name_f3 => f3 pf
  | name_f4 => f4 pf
  end.

(** The formatting state of an output stream that matters here. *)
Inductive floatfield : Type := ff_default | ff_fixed.

Record ios_format : Type := mk_ios_format {
  precision : Z;
  field : floatfield
}.

Definition ios_initial : ios_format :=
  {| precision := 6; field := ff_default |}.

(** What is inserted into [std::cout]: a number is recorded with the format
    in force when it is inserted. *)
Inductive cout_item : Type :=
| out_float (fmt : ios_format) (x : float32)
| out_seconds (fmt : ios_format) (ticks : Z)
| out_text (s : string)
| out_endl.

(** The observable actions of a run, in the order they happen. *)
Inductive event : Type :=
| ev_cerr (s : string)
| ev_cout (item : cout_item)
| ev_atoi (arg : string)
| ev_atof (arg : string)
| ev_now (t : Z)
| ev_integrate (g : integrand_name) (a b : float32) (n intensity : Z)
    (r : integration).

(** The state of the process: the format in force on [std::cout], whether
    [std::cerr] is in the bad state, the number of clock readings made, and
    the events so far. *)
Record world : Type := mk_world {
  cout_format : ios_format;
  cerr_bad : bool;
  clock_reads : nat;
  events : list event
}.

Definition world_initial : world :=
  {| cout_format := ios_initial; cerr_bad := false;
     clock_reads := 0%nat; events := [] |}.

Definition newline : string := String (ascii_of_nat 10) EmptyString.

Definition emit (e : event) : state world unit :=
  modify (fun w => {| cout_format := cout_format w;
                      cerr_bad := cerr_bad w;
                      clock_reads := clock_reads w;
                      events := events w ++ [e] |}) ;;
  ret tt.

Definition set_format (f : ios_format -> ios_format) : state world unit :=
  modify (fun w => {| cout_format := f (cout_format w);
                      cerr_bad := cerr_bad w;
                      clock_reads := clock_reads w;
                      events := events w |}) ;;
  ret tt.

(** [std::cerr << s] and [std::cerr << std::endl]: nothing is written once
    the stream is in the bad state. *)
Definition cerr_put (s : string) : state world unit :=
  w <- get ;;
  if cerr_bad w then ret tt else emit (ev_cerr s).
Definition cerr_endl : state world unit := cerr_put newline.

(** [std::cerr << p] for a [char*] that may be null ([None]).  Inserting a
    null pointer has no defined behaviour in the C++ standard; the common
    implementations write nothing and put the stream in the bad state, which
    is what is modelled. *)
Definition cerr_put_cstr (p : option string) : state world unit :=
  match p with
  | Some s => cerr_put s
  | None =>
      modify (fun w => {| cout_format := cout_format w;
                          cerr_bad := true;
                          clock_reads := clock_reads w;
                          events := events w |}) ;;
      ret tt
  end.

(** [std::cout << ...] for the manipulators and values [main] inserts. *)
Definition cout_setprecision (p : Z) : state world unit :=
  set_format (fun f => {| precision := p; field := field f |}).
Definition cout_fixed : state world unit :=
  set_format (fun f => {| precision := precision f; field := ff_fixed |}).
Definition cout_put_float (x : float32) : state world unit :=
  w <- get ;; emit (ev_cout (out_float (cout_format w) x)).
Definition cout_put_seconds (ticks : Z) : state world unit :=
  w <- get ;; emit (ev_cout (out_seconds (cout_format w) ticks)).
Definition cout_put_text (s : string) : state world unit :=
  emit (ev_cout (out_text s)).
Definition cout_endl : state world unit := emit (ev_cout out_endl).

Definition call_atoi (pf : platform) (arg : string) : state world Z :=
  emit (ev_atoi arg) ;; ret (atoi pf arg).

(** [float x = std::atof(arg)]: the binary64 result is narrowed. *)
Definition call_atof (pf : platform) (arg : string) : state world float32 :=
  emit (ev_atof arg) ;; ret (F32.of_double (atof pf arg)).

Definition now (pf : platform) : state world Z :=
  w <- get ;;
  let t := clock pf (clock_reads w) in
  put {| cout_format := cout_format w;
         cerr_bad := cerr_bad w;
         clock_reads := S (clock_reads w);
         events := events w ++ [ev_now t] |} ;;
  ret t.

Definition call_numericalIntegration (pf : platform) (g : integrand_name)
    (a b : float32) (n intensity : Z) : state world float32 :=
  let r := numericalIntegration (integrand_of pf g) a b n intensity in
  emit (ev_integrate g a b n intensity r) ;;
  ret (result r).

(** [argv[i]] as the pointer it is: [None] is the null pointer found at
    index [argc] (and, in this model, beyond). *)
Definition argv_ptr (argv : list string) (i : nat) : option string :=
  nth_error argv i.

(** [argv[i]] as a text, for an index [i < argc]; [main] passes [argv[1]] to
    [argv[5]] to the parsing functions only when [argc >= 6]. *)
Definition argv_at (argv : list string) (i : nat) : string :=
  nth i argv EmptyString.

(** The [switch] of lines 61-70: [None] is the [default] branch. *)
Definition select (functionId : Z) : option integrand_name :=
  match functionId with
  | 1 => Some name_f1
  | 2 => Some name_f2
  | 3 => Some name_f3
  | 4 => Some name_f4
  | _ => None
  end.

Definition main (pf : platform) (argv : list string) : state world Z :=
  let argc := Z.of_nat (length argv) in
  if argc <? 6 then
    cerr_put "usage: " ;;
    cerr_put_cstr (argv_ptr argv 0) ;;
    cerr_put " <functionid> <a> <b> <n> <intensity>" ;;
    cerr_endl ;;
    ret (-1)
  else
    functionId <- call_atoi pf (argv_at argv 1) ;;
    a <- call_atof pf (argv_at argv 2) ;;
    b <- call_atof pf (argv_at argv 3) ;;
    n <- call_atoi pf (argv_at argv 4) ;;
    intensity <- call_atoi pf (argv_at argv 5) ;;
    match select functionId with
    | None =>
        cerr_put "Error: Invalid function ID (must be 1, 2, 3, or 4)" ;;
        cerr_endl ;;
        ret (-1)
    | Some selectedFunc =>
        start <- now pf ;;
        result <- call_numericalIntegration pf selectedFunc a b n intensity ;;
        end_ <- now pf ;;
        let elapsed := end_ - start in
        cout_setprecision 15 ;;
        cout_put_float result ;;
        cout_put_text " " ;;
        cout_fixed ;;
        cout_setprecision 6 ;;
        cout_put_seconds elapsed ;;
        cout_endl ;;
        ret 0
    end.

(** A run of the program from the initial state. *)
Record outcome : Type := mk_outcome {
  exit_code : Z;
  trace : list event
}.

Definition run (pf : platform) (argv : list string) : outcome :=
  let (code, w) := runState (main pf argv) world_initial in
  {| exit_code := code; trace := events w |}.

(** The projections of a trace. *)
Definition stderr_of (tr : list event) : string :=
  fold_right
    (fun e acc => match e with ev_cerr s => (s ++ acc)%string | _ => acc end)
    EmptyString tr.

Definition stdout_of (tr : list event) : list cout_item :=
  flat_map (fun e => match e with ev_cout it => [it] | _ => [] end) tr.

Definition integrations_of (tr : list event) : list event :=
  filter
    (fun e => match e with ev_integrate _ _ _ _ _ _ => true | _ => false end)
    tr.

Definition parses_of (tr : list event) : list event :=
  filter
    (fun e => match e with ev_atoi _ | ev_atof _ => true | _ => false end)
    tr.

(** The clock readings of a trace, in order. *)
Definition clock_readings_of (tr : list event) : list Z :=
  flat_map (fun e => match e with ev_now t => [t] | _ => [] end) tr.

(** The events of parsing the five arguments, lines 53-57. *)
Definition parse_events (argv : list string) : list event :=
  [ev_atoi (argv_at argv 1); ev_atof (argv_at argv 2);
   ev_atof (argv_at argv 3); ev_atoi (argv_at argv 4);
   ev_atoi (argv_at argv 5)].

(** The arguments [main] parses, as values. *)
Definition arg_functionId (pf : platform) (argv : list string) : Z :=
  atoi pf (argv_at argv 1).
Definition arg_a (pf : platform) (argv : list string) : float32 :=
  F32.of_double (atof pf (argv_at argv 2)).
Definition arg_b (pf : platform) (argv : list string) : float32 :=
  F32.of_double (atof pf (argv_at argv 3)).
Definition arg_n (pf : platform) (argv : list string) : Z :=
  atoi pf (argv_at argv 4).
Definition arg_intensity (pf : platform) (argv : list string) : Z :=
  atoi pf (argv_at argv 5).

(** *** A platform to run examples on

    Decimal digits only for [atoi]; [atof] knows the two texts the examples
    use; the clock ticks once per reading. *)
Fixpoint decimal_prefix (s : string) (acc : Z) : Z :=
  match s with
  | EmptyString => acc
  | String c rest =>
      let d := Z.of_N (N_of_ascii c) - 48 in
      if (0 <=? d) && (d <=? 9) then decimal_prefix rest (10 * acc + d)
      else acc
  end.

Definition sample_atof (s : string) : spec_float :=
  if String.eqb s "1" then S754_finite false 1 0 else S754_zero false.

Definition sample_platform : platform :=
  {| atoi := fun s => decimal_prefix s 0;
     atof := sample_atof;
     f1 := fun x _ => x;
     f2 := fun _ _ => F32.one;
     f3 := fun x _ => (x * x)%f32;
     f4 := fun x k => (x * F32.of_int k)%f32;
     clock := fun k => 1000 * Z.of_nat k |}.

(** ** Facts about binary32 arithmetic *)

Lemma iter_pos_iter {A : Type} (f : A -> A) : forall p x,
  iter_pos f p x = Pos.iter f x p.
Proof.
  induction p as [p IH | p IH |]; intros x; simpl.
  - rewrite !IH, !Pos.iter_swap. reflexivity.
  - rewrite !IH. reflexivity.
  - reflexivity.
Qed.

Lemma digits2_pos_log2 p : Z.pos (digits2_pos p) = Z.log2 (Z.pos p) + 1.
Proof.
  induction p as [p IH | p IH |]; simpl digits2_pos.
  - rewrite Pos2Z.inj_succ, IH, Pos2Z.inj_xI, Z.log2_succ_double; lia.
  - rewrite Pos2Z.inj_succ, IH, Pos2Z.inj_xO, Z.log2_double; lia.
  - reflexivity.
Qed.

Lemma shr_1_m mrs : 0 <= shr_m mrs -> shr_m (shr_1 mrs) = Z.div2 (shr_m mrs).
Proof.
  destruct mrs as [m r s]. destruct m as [| [p | p |] | p]; simpl; intros H;
    try reflexivity; lia.
Qed.

Lemma shr_1_exact m :
  0 <= m ->
  shr_1 (Build_shr_record (2 * m) false false) =
  Build_shr_record m false false.
Proof.
  destruct m as [| p | p]; intros H; try reflexivity; lia.
Qed.

Lemma shr_iter_m : forall p mrs,
  0 <= shr_m mrs -> shr_m (iter_pos shr_1 p mrs) = shr_m mrs / 2 ^ Z.pos p.
Proof.
  intros p mrs. rewrite iter_pos_iter. revert mrs.
  induction p as [| p IH] using Pos.peano_ind; intros mrs Hm.
  - cbn [Pos.iter]. rewrite shr_1_m, Z.div2_div by assumption. reflexivity.
  - rewrite Pos.iter_succ_r, IH.
    + rewrite shr_1_m, Z.div2_div by assumption.
      rewrite Pos2Z.inj_succ, Z.pow_succ_r by lia.
      rewrite Z.div_div by lia. reflexivity.
    + rewrite shr_1_m, Z.div2_div by assumption. apply Z.div_pos; lia.
Qed.

Lemma shr_iter_exact : forall p m,
  0 <= m ->
  iter_pos shr_1 p (Build_shr_record (m * 2 ^ Z.pos p) false false) =
  Build_shr_record m false false.
Proof.
  intros p m Hm. rewrite iter_pos_iter.
  induction p as [| p IH] using Pos.peano_ind.
  - cbn [Pos.iter]. replace (m * 2 ^ 1) with (2 * m) by lia.
    apply shr_1_exact; assumption.
  - rewrite Pos.iter_succ_r, Pos2Z.inj_succ, Z.pow_succ_r by lia.
    replace (m * (2 * 2 ^ Z.pos p)) with (2 * (m * 2 ^ Z.pos p)) by lia.
    rewrite shr_1_exact by lia. exact IH.
Qed.

Lemma fexp32_eq e : fexp F32.prec F32.emax e = Z.max (e - 24) (-149).
Proof. reflexivity. Qed.

Lemma Zdigits2_log2 m : 0 < m -> Zdigits2 m = Z.log2 m + 1.
Proof.
  destruct m as [| p | p]; intros H; try lia. apply digits2_pos_log2.
Qed.

(** [shr] divides the mantissa by a power of two and adjusts the exponent. *)
Lemma shr_spec mrs e n :
  0 <= shr_m mrs ->
  shr_m (fst (shr mrs e n)) = shr_m mrs / 2 ^ Z.max 0 n /\
  snd (shr mrs e n) = e + Z.max 0 n.
Proof.
  intros Hm. destruct n as [| p | p]; cbn [shr fst snd].
  - rewrite Z.div_1_r. lia.
  - rewrite shr_iter_m by assumption. split; [reflexivity | lia].
  - rewrite Z.div_1_r. lia.
Qed.

Lemma shr_exact m e n :
  0 <= m -> 0 <= n ->
  shr (Build_shr_record (m * 2 ^ n) false false) e n =
  (Build_shr_record m false false, e + n).
Proof.
  intros Hm Hn. destruct n as [| p | p]; cbn [shr]; try lia.
  - rewrite Z.mul_1_r, Z.add_0_r. reflexivity.
  - rewrite shr_iter_exact by assumption. reflexivity.
Qed.

(** A mantissa whose low bits are zero is rounded without error. *)
Lemma round_aux_exact sx p q e s :
  Z.pos p = Z.pos q * 2 ^ s -> 0 <= s ->
  fexp F32.prec F32.emax (Z.pos (digits2_pos p) + e) = e + s ->
  e + s <= 104 ->
  binary_round_aux F32.prec F32.emax sx (Z.pos p) e loc_Exact =
  S754_finite sx q (e + s).
Proof.
  intros Hp Hs Hfexp Hmax.
  assert (Hdq : Z.pos (digits2_pos q) + (e + s) = Z.pos (digits2_pos p) + e).
  { rewrite !digits2_pos_log2, Hp, Z.log2_mul_pow2 by lia. lia. }
  unfold binary_round_aux, shr_fexp.
  cbn [Zdigits2 shr_record_of_loc]. rewrite Hfexp, Hp.
  replace (e + s - e) with s by lia.
  rewrite shr_exact by lia.
  cbn [shr_m loc_of_shr_record round_nearest_even Zdigits2 shr_record_of_loc].
  rewrite Hdq, Hfexp, Z.sub_diag. cbn [shr shr_m].
  change (F32.emax - F32.prec) with 104.
  destruct (Z.leb_spec (e + s) 104); [reflexivity | lia].
Qed.

Lemma pos_iter_xO p n : Z.pos (Pos.iter xO p n) = Z.pos p * 2 ^ Z.pos n.
Proof.
  induction n as [| n IH] using Pos.peano_ind.
  - cbn [Pos.iter]. lia.
  - rewrite Pos.iter_succ, Pos2Z.inj_xO, IH, Pos2Z.inj_succ, Z.pow_succ_r; lia.
Qed.

Lemma shl_align_spec m e e' :
  let k := Z.max 0 (e - e') in
  Z.pos (fst (shl_align m e e')) = Z.pos m * 2 ^ k /\
  snd (shl_align m e e') = e - k.
Proof.
  unfold shl_align. destruct (e' - e) as [| d | d] eqn:Hd; cbn [fst snd].
  - replace (Z.max 0 (e - e')) with 0 by lia. lia.
  - replace (Z.max 0 (e - e')) with 0 by lia. lia.
  - replace (Z.max 0 (e - e')) with (Z.pos d) by lia.
    rewrite pos_iter_xO. lia.
Qed.

(** [binary_round] returns the value it is given when 24 bits suffice to
    write it: [q * 2^e'] is the same number as [p * 2^e], with [q] of 24
    bits. *)
Lemma binary_round_exact sx p e q :
  let e' := Z.log2 (Z.pos p) + e - 23 in
  -149 <= e' <= 104 ->
  (e' <= e /\ Z.pos q = Z.pos p * 2 ^ (e - e')) \/
  (e <= e' /\ Z.pos p = Z.pos q * 2 ^ (e' - e)) ->
  binary_round F32.prec F32.emax sx p e = S754_finite sx q e'.
Proof.
  intros e' He' Hq. unfold binary_round.
  assert (Hl : Z.log2 (Z.pos p) = e' - e + 23) by (unfold e'; lia).
  clearbody e'.
  assert (Hfexp : fexp F32.prec F32.emax (Z.pos (digits2_pos p) + e) = e').
  { rewrite fexp32_eq, digits2_pos_log2. lia. }
  rewrite Hfexp.
  pose proof (shl_align_spec p e e') as [Hmz Hez].
  destruct (shl_align p e e') as [mz ez]. cbn [fst snd] in Hmz, Hez.
  destruct Hq as [[Hle Hq] | [Hle Hq]].
  - replace (Z.max 0 (e - e')) with (e - e') in * by lia.
    assert (mz = q) as -> by (apply Pos2Z.inj; congruence).
    assert (ez = e') as -> by lia.
    pose proof (round_aux_exact sx q q e' 0) as H.
    rewrite Z.add_0_r in H. apply H; try lia.
    rewrite fexp32_eq, digits2_pos_log2, Hq, Z.log2_mul_pow2 by lia. lia.
  - replace (Z.max 0 (e - e')) with 0 in * by lia.
    rewrite Z.mul_1_r in Hmz. injection Hmz as ->.
    assert (ez = e) as -> by lia.
    pose proof (round_aux_exact sx p q e (e' - e)) as H.
    replace (e + (e' - e)) with e' in H by lia.
    apply H; solve [lia | exact Hfexp].
Qed.

(** Integers below [2^24] convert to [float] without rounding. *)
Lemma of_int_small k :
  0 < k < 2 ^ 24 ->
  exists q, F32.of_int k = S754_finite false q (Z.log2 k - 23) /\
            Z.pos q = k * 2 ^ (23 - Z.log2 k).
Proof.
  intros Hk. destruct k as [| p | p]; try lia.
  assert (Hl : 0 <= Z.log2 (Z.pos p) < 24).
  { split; [apply Z.log2_nonneg | apply Z.log2_lt_pow2; lia]. }
  exists (Z.to_pos (Z.pos p * 2 ^ (23 - Z.log2 (Z.pos p)))).
  assert (Hq : Z.pos (Z.to_pos (Z.pos p * 2 ^ (23 - Z.log2 (Z.pos p)))) =
               Z.pos p * 2 ^ (23 - Z.log2 (Z.pos p))).
  { apply Z2Pos.id. apply Z.mul_pos_pos; [lia | apply Z.pow_pos_nonneg; lia]. }
  split; [| exact Hq].
  unfold F32.of_int, binary_normalize.
  replace (Z.log2 (Z.pos p) - 23) with (Z.log2 (Z.pos p) + 0 - 23) by lia.
  apply binary_round_exact; [lia |].
  left. split; [lia |]. rewrite Hq. f_equal. f_equal. lia.
Qed.

(** Adding [1.0f] to a float of exponent between -23 and 0 rounds the exact
    sum, written with exponent -23. *)
Lemma add_one_round m e P :
  -23 <= e <= 0 ->
  Z.pos P = Z.pos m * 2 ^ (e + 23) + 2 ^ 23 ->
  F32.add (S754_finite false m e) F32.one =
  binary_round F32.prec F32.emax false P (-23).
Proof.
  intros He HP. unfold F32.add, F32.one, SFadd.
  replace (Z.min e (-23)) with (-23) by lia.
  pose proof (shl_align_spec m e (-23)) as [Hmz _].
  cbn [cond_Zopp].
  change (fst (shl_align 8388608 (-23) (-23))) with 8388608%positive.
  replace (Z.max 0 (e - -23)) with (e + 23) in Hmz by lia.
  rewrite <- Pos2Z.inj_add. cbn [binary_normalize].
  f_equal. apply Pos2Z.inj. rewrite Pos2Z.inj_add, Hmz, HP. reflexivity.
Qed.

Lemma add_one_small k :
  0 < k -> k + 1 < 2 ^ 24 ->
  F32.add (F32.of_int k) F32.one = F32.of_int (k + 1).
Proof.
  intros Hk Hk1.
  destruct (of_int_small k) as (q & Hfk & Hq); [lia |].
  destruct (of_int_small (k + 1)) as (q' & Hfk' & Hq'); [lia |].
  assert (Hl : 0 <= Z.log2 k < 24).
  { split; [apply Z.log2_nonneg | apply Z.log2_lt_pow2; lia]. }
  assert (Hl' : 0 <= Z.log2 (k + 1) < 24).
  { split; [apply Z.log2_nonneg | apply Z.log2_lt_pow2; lia]. }
  rewrite Hfk, Hfk'.
  assert (HP : Z.pos (Z.to_pos ((k + 1) * 2 ^ 23)) = (k + 1) * 2 ^ 23).
  { apply Z2Pos.id. lia. }
  rewrite (add_one_round q _ (Z.to_pos ((k + 1) * 2 ^ 23))); [| lia |].
  - replace (Z.log2 (k + 1) - 23)
      with (Z.log2 (Z.pos (Z.to_pos ((k + 1) * 2 ^ 23))) + -23 - 23).
    + apply binary_round_exact.
      * rewrite HP, Z.log2_mul_pow2 by lia. lia.
      * right. rewrite HP, Z.log2_mul_pow2 by lia. split; [lia |].
        rewrite Hq'.
        replace (23 + Z.log2 (k + 1) + -23 - 23 - -23)
          with (Z.log2 (k + 1)) by lia.
        rewrite <- Z.mul_assoc, <- Z.pow_add_r by lia.
        f_equal. f_equal. lia.
    + rewrite HP, Z.log2_mul_pow2 by lia. lia.
  - rewrite HP, Hq.
    rewrite <- Z.mul_assoc, <- Z.pow_add_r by lia.
    replace (23 - Z.log2 k + (Z.log2 k - 23 + 23)) with 23 by lia. lia.
Qed.

Lemma shr_m_of_loc m l : shr_m (shr_record_of_loc m l) = m.
Proof. destruct l as [| []]; reflexivity. Qed.

Lemma round_nearest_even_bounds m l :
  m <= round_nearest_even m l <= m + 1.
Proof.
  destruct l as [| []]; cbn [round_nearest_even]; try lia.
  destruct (Z.even m); lia.
Qed.

Lemma log2_div_pow2 m k :
  0 < m -> 0 <= k <= Z.log2 m ->
  0 < m / 2 ^ k /\ Z.log2 (m / 2 ^ k) = Z.log2 m - k.
Proof.
  intros Hm Hk.
  assert (Hlog : Z.log2 (m / 2 ^ k) = Z.log2 m - k).
  { rewrite <- Z.shiftr_div_pow2, Z.log2_shiftr by lia. lia. }
  split; [| exact Hlog].
  apply Z.div_str_pos. split; [apply Z.pow_pos_nonneg; lia |].
  apply Z.log2_le_pow2; lia.
Qed.

(** Rounding a positive mantissa whose value lies in the range of the normal
    and subnormal numbers yields a finite, nonzero float. *)
Lemma round_aux_finite sx p e l :
  -149 < Z.pos (digits2_pos p) + e <= 127 -> e <= 104 ->
  exists m' e', binary_round_aux F32.prec F32.emax sx (Z.pos p) e l =
                S754_finite sx m' e'.
Proof.
  intros Hd He. rewrite digits2_pos_log2 in Hd.
  unfold binary_round_aux, shr_fexp.
  rewrite Zdigits2_log2, fexp32_eq by lia.
  set (s1 := Z.max (Z.log2 (Z.pos p) + 1 + e - 24) (-149) - e).
  pose proof (shr_spec (shr_record_of_loc (Z.pos p) l) e s1) as [Hm1 He1].
  { rewrite shr_m_of_loc. lia. }
  destruct (shr (shr_record_of_loc (Z.pos p) l) e s1) as [mrs1 e1].
  cbn [fst snd] in Hm1, He1. rewrite shr_m_of_loc in Hm1.
  pose proof (Z.log2_nonneg (Z.pos p)) as Hl0.
  destruct (log2_div_pow2 (Z.pos p) (Z.max 0 s1)) as [Hpos1 Hlog1];
    [lia | unfold s1; lia |].
  rewrite <- Hm1 in Hpos1, Hlog1.
  pose proof (round_nearest_even_bounds (shr_m mrs1) (loc_of_shr_record mrs1))
    as Hrne.
  set (m2 := round_nearest_even (shr_m mrs1) (loc_of_shr_record mrs1)) in *.
  assert (Hlog2 : Z.log2 (shr_m mrs1) <= Z.log2 m2 <= Z.log2 (shr_m mrs1) + 1).
  { split.
    - apply Z.log2_le_mono. lia.
    - transitivity (Z.log2 (Z.succ (shr_m mrs1))).
      + apply Z.log2_le_mono. lia.
      + apply Z.log2_succ_le. }
  rewrite Zdigits2_log2, fexp32_eq by lia.
  set (s2 := Z.max (Z.log2 m2 + 1 + e1 - 24) (-149) - e1).
  pose proof (shr_spec (shr_record_of_loc m2 loc_Exact) e1 s2) as [Hm3 He3].
  { rewrite shr_m_of_loc. lia. }
  destruct (shr (shr_record_of_loc m2 loc_Exact) e1 s2) as [mrs3 e3].
  cbn [fst snd] in Hm3, He3. rewrite shr_m_of_loc in Hm3.
  pose proof (Z.log2_nonneg m2) as Hl2.
  destruct (log2_div_pow2 m2 (Z.max 0 s2)) as [Hpos3 _];
    [lia | unfold s1, s2 in *; lia |].
  rewrite <- Hm3 in Hpos3.
  destruct (shr_m mrs3) as [| m3 | m3]; try lia.
  change (F32.emax - F32.prec) with 104.
  destruct (Z.leb_spec e3 104) as [_ | Hbig].
  - eauto.
  - unfold s1, s2 in *. lia.
Qed.

(** Every nonzero [int] converts to a finite, nonzero [float] of the same
    sign. *)
Lemma of_int_finite n :
  n <> 0 -> in_int n ->
  exists m e, F32.of_int n = S754_finite (n <? 0) m e.
Proof.
  intros Hnz Hn.
  assert (Hround : forall sx p, Z.pos p <= 2 ^ 31 ->
            exists m e, binary_round F32.prec F32.emax sx p 0 =
                        S754_finite sx m e).
  { intros sx p Hp. unfold binary_round.
    assert (Hl : 0 <= Z.log2 (Z.pos p) < 32).
    { split; [apply Z.log2_nonneg | apply Z.log2_lt_pow2; lia]. }
    set (e' := fexp F32.prec F32.emax (Z.pos (digits2_pos p) + 0)).
    pose proof (shl_align_spec p 0 e') as [Hmz Hez].
    destruct (shl_align p 0 e') as [mz ez]. cbn [fst snd] in Hmz, Hez.
    apply round_aux_finite.
    - rewrite digits2_pos_log2, Hmz, Z.log2_mul_pow2 by lia. lia.
    - lia. }
  unfold in_int, int_min, int_max in Hn.
  destruct n as [| p | p]; [contradiction | |]; cbn [Z.ltb Z.compare];
    unfold F32.of_int, binary_normalize; apply Hround; lia.
Qed.

(** *** Counting in single precision *)

Lemma accumulate_constant a dx k c : forall idx s0,
  accumulate (fun _ _ => c) a dx k s0 idx =
  Nat.iter (length idx) (fun s => (s + c)%f32) s0.
Proof.
  unfold accumulate. induction idx as [| i idx IH]; intros s0.
  - reflexivity.
  - cbn [fold_left length]. rewrite IH, Nat.iter_succ_r. reflexivity.
Qed.

Lemma count_up_exact : forall m,
  Z.of_nat m <= 2 ^ 24 -> count_up m F32.zero = F32.of_int (Z.of_nat m).
Proof.
  unfold count_up. induction m as [| m IH]; intros Hm.
  - reflexivity.
  - rewrite Nat.iter_succ, IH by lia.
    destruct (Z.eq_dec (Z.of_nat m) 0) as [H0 | H0].
    + replace (Z.of_nat (S m)) with 1 by lia. rewrite H0. reflexivity.
    + destruct (Z.eq_dec (Z.of_nat (S m)) (2 ^ 24)) as [Htop | Htop].
      * rewrite Htop. replace (Z.of_nat m) with (2 ^ 24 - 1) by lia.
        vm_compute. reflexivity.
      * rewrite add_one_small by lia. f_equal. lia.
Qed.

(** From [2^24 = 16777216] on, adding [1.0f] no longer changes the sum. *)
Lemma count_up_saturated : forall m,
  2 ^ 24 <= Z.of_nat m -> count_up m F32.zero = F32.of_int (2 ^ 24).
Proof.
  induction m as [| m IH]; intros Hm.
  - lia.
  - destruct (Z.eq_dec (Z.of_nat (S m)) (2 ^ 24)) as [Htop | Htop].
    + rewrite count_up_exact by lia. rewrite Htop. reflexivity.
    + unfold count_up in *. rewrite Nat.iter_succ, IH by lia.
      vm_compute. reflexivity.
Qed.

(** *** Sign symmetry of the operations *)

Lemma round_aux_opp sx m e l :
  binary_round_aux F32.prec F32.emax (negb sx) m e l =
  F32.opp (binary_round_aux F32.prec F32.emax sx m e l).
Proof.
  unfold binary_round_aux.
  destruct (shr_fexp F32.prec F32.emax m e l) as [mrs1 e1].
  destruct (shr_fexp F32.prec F32.emax _ e1 loc_Exact) as [mrs2 e2].
  destruct (shr_m mrs2) as [| m2 | m2]; try reflexivity.
  destruct (e2 <=? F32.emax - F32.prec); reflexivity.
Qed.

Lemma binary_round_opp sx m e :
  binary_round F32.prec F32.emax (negb sx) m e =
  F32.opp (binary_round F32.prec F32.emax sx m e).
Proof.
  unfold binary_round.
  destruct (shl_align m e _) as [mz ez]. apply round_aux_opp.
Qed.

Lemma binary_normalize_opp z e :
  z <> 0 ->
  binary_normalize F32.prec F32.emax (- z) e false =
  F32.opp (binary_normalize F32.prec F32.emax z e false).
Proof.
  destruct z as [| p | p]; intros Hz; [contradiction | |];
    cbn [Z.opp binary_normalize].
  - apply (binary_round_opp false).
  - apply (binary_round_opp true).
Qed.

(** [a - b] is the negation of [b - a], unless both are [+0]. *)
Lemma sub_swap a b :
  F32.is_zero (b - a)%f32 = false -> (a - b)%f32 = (- (b - a))%f32.
Proof.
  unfold F32.sub, SFsub.
  destruct a as [sa | sa | | sa ma ea], b as [sb | sb | | sb mb eb];
    intros Hnz;
    try (destruct sa, sb; cbn in *; first [reflexivity | discriminate Hnz]);
    try (cbn; rewrite ?negb_involutive; reflexivity).
  rewrite (Z.min_comm ea eb).
  set (za := cond_Zopp sa (Z.pos (fst (shl_align ma ea (Z.min eb ea))))) in *.
  set (zb := cond_Zopp sb (Z.pos (fst (shl_align mb eb (Z.min eb ea))))) in *.
  replace (za - zb) with (- (zb - za)) by lia.
  apply binary_normalize_opp. intros Hz. rewrite Hz in Hnz. discriminate.
Qed.

Lemma div_opp_l x y : (- x / y)%f32 = (- (x / y))%f32.
Proof.
  unfold F32.div, SFdiv.
  destruct x as [sx | sx | | sx mx ex], y as [sy | sy | | sy my ey];
    cbn [F32.opp SFopp]; try reflexivity;
    try (destruct sx, sy; reflexivity).
  destruct (SFdiv_core_binary F32.prec F32.emax (Z.pos mx) ex (Z.pos my) ey)
    as [[mz ez] lz].
  rewrite <- round_aux_opp. f_equal. destruct sx, sy; reflexivity.
Qed.

Lemma mul_opp_r x y : (x * - y)%f32 = (- (x * y))%f32.
Proof.
  unfold F32.mul, SFmul.
  destruct x as [sx | sx | | sx mx ex], y as [sy | sy | | sy my ey];
    cbn [F32.opp SFopp]; try reflexivity;
    try (destruct sx, sy; reflexivity).
  rewrite <- round_aux_opp. f_equal. destruct sx, sy; reflexivity.
Qed.

Lemma opp_involutive x : F32.opp (F32.opp x) = x.
Proof.
  destruct x as [s | s | | s m e]; cbn; rewrite ?negb_involutive; reflexivity.
Qed.

(** In every case [a - b] is the negation of [b - a], or both are [+0]. *)
Lemma sub_swap_cases a b :
  (a - b)%f32 = (- (b - a))%f32 \/
  ((b - a)%f32 = F32.zero /\ (a - b)%f32 = F32.zero).
Proof.
  destruct (F32.is_zero (b - a)%f32) eqn:Hz;
    [| left; apply sub_swap; exact Hz].
  revert Hz. unfold F32.sub, SFsub.
  destruct a as [sa | sa | | sa ma ea], b as [sb | sb | | sb mb eb];
    intros Hz; try discriminate Hz;
    try (destruct sa, sb; cbn; auto; fail).
  clear Hz. rewrite (Z.min_comm eb ea).
  set (za := cond_Zopp sa (Z.pos (fst (shl_align ma ea (Z.min ea eb))))).
  set (zb := cond_Zopp sb (Z.pos (fst (shl_align mb eb (Z.min ea eb))))).
  destruct (Z.eq_dec (zb - za) 0) as [H0 | Hne].
  - right. replace (za - zb) with 0 by lia. rewrite H0. split; reflexivity.
  - left. replace (za - zb) with (- (zb - za)) by lia.
    apply binary_normalize_opp. exact Hne.
Qed.

(** *** The comparison [==] *)

Lemma eqb_refl x : F32.is_nan x = false -> F32.eqb x x = true.
Proof.
  unfold F32.eqb, SFeqb, SFcompare.
  destruct x as [s | s | | s m e]; intros Hnan;
    try discriminate Hnan; try (destruct s; reflexivity).
  rewrite Z.compare_refl, Pos.compare_cont_refl. destruct s; reflexivity.
Qed.

Lemma eqb_zero_opp z : F32.is_zero z = true -> F32.eqb z (- z)%f32 = true.
Proof.
  destruct z as [s | s | | s m e]; intros Hz; try discriminate Hz;
    reflexivity.
Qed.

Lemma eqb_nan_l x y : F32.is_nan x = true -> F32.eqb x y = false.
Proof. destruct x; intros Hnan; try discriminate Hnan; reflexivity. Qed.

Lemma is_nan_opp x : F32.is_nan (- x)%f32 = F32.is_nan x.
Proof. destruct x; reflexivity. Qed.

Lemma mul_nan_r x : (x * S754_nan)%f32 = S754_nan.
Proof. destruct x; reflexivity. Qed.

Lemma add_nan_r x : (x + S754_nan)%f32 = S754_nan.
Proof. destruct x; reflexivity. Qed.

Lemma div_zero_l y :
  F32.is_nan (F32.zero / y)%f32 = false ->
  F32.is_zero (F32.zero / y)%f32 = true.
Proof. destruct y as [s | s | | s m e]; cbn; congruence. Qed.

Lemma mul_zero_r x z :
  F32.is_zero z = true -> F32.is_nan (x * z)%f32 = false ->
  F32.is_zero (x * z)%f32 = true /\ F32.is_nan z = false.
Proof.
  destruct x as [sx | sx | | sx mx ex], z as [sz | sz | | sz mz ez]; cbn;
    intuition congruence.
Qed.

(** ** Facts about the loop *)

Lemma for_loop_step f a dx n k i st :
  for_loop f a dx n k i st =
  if Z.ltb i n then for_loop f a dx n k (i + 1) (loop_body f a dx k i st)
  else st.
Proof.
  rewrite for_loop_equation_1. unfold for_loop_clause_1.
  destruct (Z_lt_dec i n) as [Hlt | Hge], (Z.ltb_spec i n);
    first [reflexivity | lia].
Qed.

Lemma for_loop_done f a dx n k i st :
  n <= i -> for_loop f a dx n k i st = st.
Proof.
  intros Hge. rewrite for_loop_step.
  destruct (Z.ltb_spec i n); [lia | reflexivity].
Qed.

Lemma indices_from_S from count :
  indices_from from (S count) = from :: indices_from (from + 1) count.
Proof.
  unfold indices_from. simpl. rewrite Z.add_0_r. f_equal.
  rewrite <- seq_shift, map_map. apply map_ext. intros j. lia.
Qed.

Lemma length_indices n : length (indices n) = Z.to_nat n.
Proof.
  unfold indices, indices_from. rewrite length_map, length_seq. reflexivity.
Qed.

(** The loop index and its successor stay in the range of [int]: the
    increment [++i] never overflows. *)
Lemma indices_in_int n j :
  n <= int_max -> In j (indices n) -> in_int j /\ in_int (j + 1).
Proof.
  unfold indices, indices_from. intros Hn Hin.
  apply in_map_iff in Hin. destruct Hin as (c & <- & Hc).
  apply in_seq in Hc. unfold in_int, int_min, int_max in *. lia.
Qed.

(** The loop entered at [i] runs the body once for each index of
    [i, i+1, ..., n-1], in this order. *)
Lemma for_loop_fold f a dx n k : forall count i st,
  Z.to_nat (n - i) = count ->
  for_loop f a dx n k i st =
  fold_left (fun s j => loop_body f a dx k j s) (indices_from i count) st.
Proof.
  induction count as [| count IH]; intros i st Hcount.
  - apply for_loop_done. lia.
  - rewrite for_loop_step. destruct (Z.ltb_spec i n) as [Hlt | Hge]; [| lia].
    rewrite indices_from_S. simpl. apply IH. lia.
Qed.

Lemma fold_body_sum f a dx k : forall idx st,
  sum (fold_left (fun s j => loop_body f a dx k j s) idx st) =
  accumulate f a dx k (sum st) idx.
Proof.
  unfold accumulate. induction idx as [| i idx IH]; intros st; simpl.
  - reflexivity.
  - rewrite IH. reflexivity.
Qed.

Lemma fold_body_calls f a dx k : forall idx st,
  calls (fold_left (fun s j => loop_body f a dx k j s) idx st) =
  calls st ++ map (fun i => (midpoint a dx i, k)) idx.
Proof.
  induction idx as [| i idx IH]; intros st; simpl.
  - rewrite app_nil_r. reflexivity.
  - rewrite IH. simpl. rewrite <- app_assoc. reflexivity.
Qed.

(** The function computes an execution of the relation. *)
Lemma for_loop_exec f a dx n k : forall count i st,
  Z.to_nat (n - i) = count ->
  loop_exec (graph f) a dx n k i st (for_loop f a dx n k i st).
Proof.
  induction count as [| count IH]; intros i st Hcount.
  - rewrite for_loop_done by lia. apply loop_exit. lia.
  - rewrite for_loop_step. destruct (Z.ltb_spec i n) as [Hlt | Hge]; [| lia].
    eapply loop_iter; [exact Hlt | reflexivity |].
    apply IH. lia.
Qed.

Lemma loop_exec_deterministic F a dx n k :
  deterministic F ->
  forall i st st1, loop_exec F a dx n k i st st1 ->
  forall st2, loop_exec F a dx n k i st st2 -> st1 = st2.
Proof.
  intros Hdet i st st1 H1.
  induction H1 as [i st Hge | i st y st1 Hlt Hy _ IH]; intros st2 H2.
  - inversion H2; subst; [reflexivity | contradiction].
  - inversion H2; subst; [contradiction |].
    match goal with
    | Hy' : F _ _ ?y' |- _ => rewrite (Hdet _ _ _ _ Hy' Hy) in *
    end.
    apply IH. assumption.
Qed.

(** Whatever the integrand returns, the loop calls it at the midpoints of
    [i, i+1, ..., n-1], in this order. *)
Lemma loop_exec_calls F a dx n k :
  forall i st st', loop_exec F a dx n k i st st' ->
  calls st' =
  calls st ++ map (fun j => (midpoint a dx j, k))
                  (indices_from i (Z.to_nat (n - i))).
Proof.
  intros i st st' H.
  induction H as [i st Hge | i st y st' Hlt Hy _ IH].
  - replace (Z.to_nat (n - i)) with 0%nat by lia. simpl.
    rewrite app_nil_r. reflexivity.
  - rewrite IH. simpl calls.
    replace (Z.to_nat (n - i)) with (S (Z.to_nat (n - (i + 1)))) by lia.
    rewrite indices_from_S. simpl. rewrite <- app_assoc. reflexivity.
Qed.

Lemma numericalIntegration_exec f a b n k :
  integration_exec (graph f) a b n k (numericalIntegration f a b n k).
Proof.
  unfold integration_exec, numericalIntegration.
  eexists. split; [| reflexivity].
  eapply for_loop_exec. reflexivity.
Qed.

Lemma result_accumulate f a b n k :
  let dx := ((b - a) / F32.of_int n)%f32 in
  result (numericalIntegration f a b n k) =
  (accumulate f a dx k F32.zero (indices n) * dx)%f32.
Proof.
  unfold numericalIntegration, indices. cbn [result].
  rewrite (for_loop_fold _ _ _ _ _ (Z.to_nat n)) by (f_equal; lia).
  rewrite fold_body_sum. reflexivity.
Qed.

Lemma evaluations_midpoints f a b n k :
  let dx := ((b - a) / F32.of_int n)%f32 in
  evaluations (numericalIntegration f a b n k) =
  map (fun i => (midpoint a dx i, k)) (indices n).
Proof.
  unfold numericalIntegration, indices. cbn [evaluations].
  rewrite (for_loop_fold _ _ _ _ _ (Z.to_nat n)) by (f_equal; lia).
  rewrite fold_body_calls. reflexivity.
Qed.

(** Whatever the integrand returns, its values are added to [sum] in the
    order of the indices [i, i+1, ..., n-1]. *)
Lemma loop_exec_sum F a dx n k :
  forall i st st', loop_exec F a dx n k i st st' ->
  exists ys,
    Forall2 (fun j y => F (midpoint a dx j) k y)
            (indices_from i (Z.to_nat (n - i))) ys /\
    sum st' = fold_left F32.add ys (sum st).
Proof.
  intros i st st' H.
  induction H as [i st Hge | i st y st' Hlt Hy _ (ys & Hys & Hsum)].
  - exists []. replace (Z.to_nat (n - i)) with 0%nat by lia.
    split; [constructor | reflexivity].
  - exists (y :: ys).
    replace (Z.to_nat (n - i)) with (S (Z.to_nat (n - (i + 1)))) by lia.
    rewrite indices_from_S. split; [constructor; assumption | exact Hsum].
Qed.

(** With the constant integrand [1] the loop counts its iterations in single
    precision: the sum is the float [min(n, 2^24)]. *)
Lemma constant_integrand_sum a dx k n :
  1 <= n ->
  accumulate (fun _ _ => F32.one) a dx k F32.zero (indices n) =
  F32.of_int (Z.min n (2 ^ 24)).
Proof.
  intros Hn. rewrite accumulate_constant, length_indices.
  change (Nat.iter (Z.to_nat n) (fun s => (s + F32.one)%f32) F32.zero)
    with (count_up (Z.to_nat n) F32.zero).
  destruct (Z.le_gt_cases n (2 ^ 24)) as [Hle | Hgt].
  - rewrite count_up_exact by lia. f_equal. lia.
  - rewrite count_up_saturated by lia. f_equal. lia.
Qed.

(** ** Properties of the integrator *)

(** C1. [numericalIntegration(f, a, b, n, k)] computes [dx = (b - a) / n],
    evaluates [f] at the midpoints [a + (i + 0.5) * dx] for [i = 0 .. n-1] in
    ascending order, always with the same [k], adds the values to [sum] in
    that order and returns [sum * dx].

    The statement is written out in the operations of binary32 alone: the
    indices are [0, 1, ..., n-1] as a list, [0.5] is the float
    [8388608 * 2^-24], the initial sum is [+0], the sum is a left fold. *)
Theorem numericalIntegration_midpoint_rule f a b n k :
  let dx := F32.div (F32.sub b a) (F32.of_int n) in
  let x_ := fun i : Z =>
    F32.add a (F32.mul (F32.add (F32.of_int i)
                                (S754_finite false 8388608 (-24))) dx) in
  let ascending := map Z.of_nat (seq 0 (Z.to_nat n)) in
  numericalIntegration f a b n k =
  {| result :=
       F32.mul
         (fold_left (fun sum_ i => F32.add sum_ (f (x_ i) k)) ascending
            (S754_zero false))
         dx;
     evaluations := map (fun i => (x_ i, k)) ascending |}.
Proof.
  intros dx x_ ascending.
  pose proof (result_accumulate f a b n k) as Hr.
  pose proof (evaluations_midpoints f a b n k) as He.
  assert (Hidx : indices n = ascending).
  { unfold indices, indices_from, ascending. apply map_ext. intros j. lia. }
  cbn zeta in Hr, He. rewrite Hidx in Hr, He.
  destruct (numericalIntegration f a b n k) as [r ev].
  cbn [result evaluations] in Hr, He. rewrite Hr, He. reflexivity.
Qed.

(** C7. With a deterministic integrand, two evaluations of the integrator on
    the same inputs yield the same result, bit for bit; the integrand is
    called at the midpoints of [i = 0 .. n-1] in ascending order and its
    values are added to the sum from left to right in that order. *)
Theorem integration_reproducible F a b n k r1 r2 :
  deterministic F ->
  integration_exec F a b n k r1 ->
  integration_exec F a b n k r2 ->
  let dx := ((b - a) / F32.of_int n)%f32 in
  r1 = r2 /\
  evaluations r1 = map (fun i => (midpoint a dx i, k)) (indices n) /\
  exists ys,
    Forall2 (fun i y => F (midpoint a dx i) k y) (indices n) ys /\
    result r1 = (fold_left F32.add ys F32.zero * dx)%f32.
Proof.
  intros Hdet (st1 & H1 & ->) (st2 & H2 & ->) dx.
  pose proof (loop_exec_deterministic _ _ _ _ _ Hdet _ _ _ H1 _ H2) as <-.
  split; [reflexivity |]. cbn [result evaluations]. split.
  - rewrite (loop_exec_calls _ _ _ _ _ _ _ _ H1).
    cbn [calls app]. unfold indices. rewrite Z.sub_0_r. reflexivity.
  - destruct (loop_exec_sum _ _ _ _ _ _ _ _ H1) as (ys & Hys & Hsum).
    exists ys. rewrite Z.sub_0_r in Hys. split; [exact Hys |].
    rewrite Hsum. reflexivity.
Qed.

Lemma integration_reproducible_witness :
  let r := numericalIntegration (fun x _ => x) F32.zero F32.one 3 0 in
  let dx := ((F32.one - F32.zero) / F32.of_int 3)%f32 in
  r = r /\
  evaluations r = map (fun i => (midpoint F32.zero dx i, 0)) (indices 3) /\
  exists ys,
    Forall2 (fun i y => graph (fun x _ => x) (midpoint F32.zero dx i) 0 y)
            (indices 3) ys /\
    result r = (fold_left F32.add ys F32.zero * dx)%f32.
Proof.
  intros r dx.
  apply (integration_reproducible (graph (fun x _ => x)) F32.zero F32.one 3 0).
  - intros x k y1 y2 H1 H2. unfold graph in *. congruence.
  - apply numericalIntegration_exec.
  - apply numericalIntegration_exec.
Defined.

(** C8. With [n >= 1] the divisor of [dx = (b - a) / n] is a finite nonzero
    float and the loop reaches its exit after exactly [n] calls of the
    integrand; nothing in the routine tests [n]: for [n <= 0] the same
    statements run, the loop body being skipped. *)
Theorem integrator_trusts_positive_count f a b n k :
  1 <= n <= int_max ->
  (exists m e, F32.of_int n = S754_finite false m e) /\
  integration_exec (graph f) a b n k (numericalIntegration f a b n k) /\
  length (evaluations (numericalIntegration f a b n k)) = Z.to_nat n /\
  (forall n', n' <= 0 ->
     numericalIntegration f a b n' k =
     {| result := (F32.zero * ((b - a) / F32.of_int n'))%f32;
        evaluations := [] |}).
Proof.
  intros Hn. split.
  { destruct (of_int_finite n) as (m & e & He);
      [lia | unfold in_int, int_min; lia |].
    destruct (Z.ltb_spec n 0); [lia |]. eauto. }
  split; [apply numericalIntegration_exec |]. split.
  - rewrite evaluations_midpoints, length_map. apply length_indices.
  - intros n' Hn'. unfold numericalIntegration.
    rewrite for_loop_done by lia. reflexivity.
Qed.

Lemma integrator_trusts_positive_count_witness :
  (exists m e, F32.of_int 3 = S754_finite false m e) /\
  integration_exec (graph (fun x _ => x)) F32.zero F32.one 3 0
    (numericalIntegration (fun x _ => x) F32.zero F32.one 3 0) /\
  length (evaluations
            (numericalIntegration (fun x _ => x) F32.zero F32.one 3 0))
  = Z.to_nat 3 /\
  (forall n', n' <= 0 ->
     numericalIntegration (fun x _ => x) F32.zero F32.one n' 0 =
     {| result := (F32.zero * ((F32.one - F32.zero) / F32.of_int n'))%f32;
        evaluations := [] |}).
Proof.
  apply (integrator_trusts_positive_count (fun x _ => x) F32.zero F32.one 3 0).
  unfold int_max. lia.
Defined.

(** C10. With a negative [n] the loop body never runs, [f] is never called,
    and the routine returns [0 * ((b - a) / n)] without faulting: the divisor
    is a finite nonzero float.  That product is a signed zero when the step
    [(b - a) / n] is finite; it is NaN when the step is infinite or NaN. *)
Theorem negative_count_skips_loop f a b n k :
  n < 0 ->
  let dx := ((b - a) / F32.of_int n)%f32 in
  let r := numericalIntegration f a b n k in
  evaluations r = [] /\
  result r = (F32.zero * dx)%f32 /\
  (in_int n -> exists m e, F32.of_int n = S754_finite true m e) /\
  F32.is_zero (result r) = F32.is_finite dx /\
  (F32.is_finite dx = false -> result r = S754_nan).
Proof.
  intros Hn dx r. unfold r, numericalIntegration. fold dx.
  rewrite for_loop_done by lia. cbn [sum calls result evaluations].
  split; [reflexivity |]. split; [reflexivity |]. split.
  { intros Hint.
    destruct (of_int_finite n) as (m & e & He); [lia | exact Hint |].
    destruct (Z.ltb_spec n 0); [eauto | lia]. }
  split; destruct dx as [s | s | | s m e]; try reflexivity; discriminate.
Qed.

Lemma negative_count_skips_loop_witness :
  let dx := ((F32.one - F32.zero) / F32.of_int (-4))%f32 in
  let r := numericalIntegration (fun x _ => x) F32.zero F32.one (-4) 0 in
  evaluations r = [] /\
  result r = (F32.zero * dx)%f32 /\
  (in_int (-4) -> exists m e, F32.of_int (-4) = S754_finite true m e) /\
  F32.is_zero (result r) = F32.is_finite dx /\
  (F32.is_finite dx = false -> result r = S754_nan).
Proof.
  apply (negative_count_skips_loop (fun x _ => x) F32.zero F32.one (-4) 0).
  lia.
Defined.

(** With the finite bounds [a = -FLT_MAX], [b = FLT_MAX] and [n = -1], the
    difference [b - a] overflows, and the value returned is NaN, not a
    zero. *)
Lemma negative_count_not_zero :
  let a := (- F32.max_float)%f32 in
  let b := F32.max_float in
  let r := numericalIntegration (fun x _ => x) a b (-1) 0 in
  F32.is_finite a = true /\ F32.is_finite b = true /\
  evaluations r = [] /\
  result r = S754_nan /\
  F32.is_zero (result r) = false.
Proof. vm_compute. repeat split. Qed.

(** C5.  Swapping the bounds: the run from [a] to [b] returns [sum * dx],
    the swapped run returns [sum' * dx'], where [dx' = (a - b) / n] compares
    equal to [-dx] (unless the step is NaN) and [sum'] is accumulated at the
    points [b + (i + 0.5) * dx'].  When the two sums are the same float and
    the result is not NaN, [result(a, b) == -result(b, a)] holds; when the
    result is NaN the comparison is false.

    The sample points are written out: [0.5] is [8388608 * 2^-24]. *)
Theorem swapped_bounds_negate_step f a b n k :
  let dx := ((b - a) / F32.of_int n)%f32 in
  let dx' := ((a - b) / F32.of_int n)%f32 in
  let half := S754_finite false 8388608 (-24) in
  let total :=
    fold_left
      (fun s i => (s + f (a + (F32.of_int i + half) * dx) k)%f32)
      (indices n) F32.zero in
  let total' :=
    fold_left
      (fun s i => (s + f (b + (F32.of_int i + half) * dx') k)%f32)
      (indices n) F32.zero in
  let forward := result (numericalIntegration f a b n k) in
  let backward := result (numericalIntegration f b a n k) in
  (F32.is_nan dx = false -> F32.eqb dx' (- dx)%f32 = true) /\
  forward = (total * dx)%f32 /\
  backward = (total' * dx')%f32 /\
  (total' = total -> F32.is_nan forward = false ->
   F32.eqb forward (- backward)%f32 = true) /\
  (F32.is_nan forward = true -> F32.eqb forward (- backward)%f32 = false).
Proof.
  intros dx dx' half total total' forward backward.
  assert (Hf : forward = (total * dx)%f32)
    by apply (result_accumulate f a b n k).
  assert (Hb : backward = (total' * dx')%f32)
    by apply (result_accumulate f b a n k).
  assert (Hstep : dx' = (- dx)%f32 \/
                  (dx' = dx /\ (F32.is_nan dx = false ->
                                F32.is_zero dx = true))).
  { unfold dx, dx'. destruct (sub_swap_cases a b) as [-> | [-> ->]].
    - left. apply div_opp_l.
    - right. split; [reflexivity | apply div_zero_l]. }
  split; [| split; [exact Hf | split; [exact Hb | split]]].
  - intros Hnan. destruct Hstep as [-> | [-> Hzero]].
    + apply eqb_refl. rewrite is_nan_opp. exact Hnan.
    + apply eqb_zero_opp, Hzero, Hnan.
  - intros Hsame Hnan. rewrite Hb, Hsame.
    destruct Hstep as [-> | [-> Hzero]].
    + rewrite mul_opp_r, opp_involutive, <- Hf. apply eqb_refl, Hnan.
    + rewrite <- Hf. apply eqb_zero_opp.
      destruct (F32.is_nan dx) eqn:Hdx.
      * rewrite Hf in Hnan. destruct dx; try discriminate Hdx.
        rewrite mul_nan_r in Hnan. discriminate Hnan.
      * rewrite Hf in *.
        apply mul_zero_r; [apply Hzero; reflexivity | exact Hnan].
  - intros Hnan. apply eqb_nan_l, Hnan.
Qed.

Lemma swapped_bounds_negate_step_witness :
  let f : FuncPtr := fun _ _ => F32.one in
  F32.eqb (result (numericalIntegration f F32.zero F32.one 3 0))
          (- result (numericalIntegration f F32.one F32.zero 3 0))%f32 = true.
Proof.
  intros f.
  apply (swapped_bounds_negate_step f F32.zero F32.one 3 0).
  - vm_compute. reflexivity.
  - vm_compute. reflexivity.
Defined.

(** With an integrand that returns NaN the two results are NaN and the
    comparison is false, although the two sums are the same: the condition
    on the result cannot be dropped. *)
Lemma swapped_bounds_nan_not_equal :
  let f : FuncPtr := fun _ _ => S754_nan in
  F32.eqb (result (numericalIntegration f F32.zero F32.one 3 0))
          (- result (numericalIntegration f F32.one F32.zero 3 0))%f32 = false.
Proof. vm_compute. reflexivity. Qed.

(** With [f(x, k) = x], [a = 0], [b = 1] and [n = 3] the run returns [0.5]
    and the run with the bounds swapped returns [-16777215 * 2^-25]: the
    comparison [result(a, b) == -result(b, a)] is false. *)
Lemma swapped_bounds_not_negated :
  let f : FuncPtr := fun x _ => x in
  let forward := result (numericalIntegration f F32.zero F32.one 3 0) in
  let backward := result (numericalIntegration f F32.one F32.zero 3 0) in
  forward = F32.half /\
  backward = S754_finite true 16777215 (-25) /\
  F32.eqb forward (- backward)%f32 = false.
Proof. vm_compute. repeat split. Qed.

(** C6.  For the constant integrand [1] and [n >= 1] the accumulated sum is
    the float [min(n, 2^24)], so that the value returned is
    [min(n, 2^24) * ((b - a) / n)]: up to [n = 2^24] it is the product
    [n * ((b - a) / n)], beyond it the sum stays at [2^24]. *)
Theorem constant_integrand_result a b n k :
  1 <= n ->
  let dx := ((b - a) / F32.of_int n)%f32 in
  result (numericalIntegration (fun _ _ => F32.one) a b n k) =
  (F32.of_int (Z.min n (2 ^ 24)) * dx)%f32.
Proof.
  intros Hn dx. rewrite result_accumulate, constant_integrand_sum by lia.
  reflexivity.
Qed.

Lemma constant_integrand_result_witness :
  result (numericalIntegration (fun _ _ => F32.one) F32.zero F32.one 4 0) =
  (F32.of_int (Z.min 4 (2 ^ 24)) * ((F32.one - F32.zero) / F32.of_int 4))%f32.
Proof.
  apply (constant_integrand_result F32.zero F32.one 4 0). lia.
Defined.

(** With [a = 0], [b = 1] and [n = 2^25 = 33554432] the value returned for
    the constant integrand [1] is [0.5], half of [b - a = 1]. *)
Lemma constant_integrand_half :
  result (numericalIntegration (fun _ _ => F32.one) F32.zero F32.one 33554432 0)
  = F32.half /\
  (F32.one - F32.zero)%f32 = F32.one /\
  F32.eqb F32.half F32.one = false.
Proof.
  split; [| split; reflexivity].
  rewrite result_accumulate, constant_integrand_sum by lia.
  vm_compute. reflexivity.
Qed.

(** ** Facts about the driver *)

Lemma select_spec functionId g :
  select functionId = Some g <->
  (functionId = 1 /\ g = name_f1) \/ (functionId = 2 /\ g = name_f2) \/
  (functionId = 3 /\ g = name_f3) \/ (functionId = 4 /\ g = name_f4).
Proof.
  split.
  - destruct functionId as [| [[| [] |] | [[] | [] |] |] |]; cbn;
      intros H; try discriminate; injection H as <-; intuition.
  - intros [[-> ->] | [[-> ->] | [[-> ->] | [-> ->]]]]; reflexivity.
Qed.

Lemma select_none functionId :
  ~ In functionId [1; 2; 3; 4] <-> select functionId = None.
Proof.
  split.
  - intros Hout.
    destruct (select functionId) as [g |] eqn:Hsel; [| reflexivity].
    apply select_spec in Hsel. exfalso. apply Hout. cbn.
    destruct Hsel as [[-> _] | [[-> _] | [[-> _] | [-> _]]]]; auto.
  - intros Hsel Hin. cbn in Hin.
    destruct Hin as [<- | [<- | [<- | [<- | []]]]]; discriminate.
Qed.

Lemma run_usage pf argv :
  (1 <= length argv < 6)%nat ->
  run pf argv =
  {| exit_code := -1;
     trace := [ev_cerr "usage: "; ev_cerr (argv_at argv 0);
               ev_cerr " <functionid> <a> <b> <n> <intensity>";
               ev_cerr newline] |}.
Proof.
  intros Hlen. unfold run, main.
  destruct (Z.ltb_spec (Z.of_nat (length argv)) 6); [| lia].
  destruct argv as [| prog rest]; [cbn in Hlen; lia | reflexivity].
Qed.

(** Without a program name ([argc = 0], [argv[0]] null) the usage line stops
    after its first piece. *)
Lemma run_without_program_name pf :
  run pf [] = {| exit_code := -1; trace := [ev_cerr "usage: "] |}.
Proof. reflexivity. Qed.

Lemma run_rejected pf argv :
  (6 <= length argv)%nat ->
  select (arg_functionId pf argv) = None ->
  run pf argv =
  {| exit_code := -1;
     trace := parse_events argv ++
              [ev_cerr "Error: Invalid function ID (must be 1, 2, 3, or 4)";
               ev_cerr newline] |}.
Proof.
  intros Hlen Hsel. unfold run, main, arg_functionId in *.
  destruct (Z.ltb_spec (Z.of_nat (length argv)) 6); [lia |].
  cbn. rewrite Hsel. reflexivity.
Qed.

Lemma run_selected pf argv g :
  (6 <= length argv)%nat ->
  select (arg_functionId pf argv) = Some g ->
  let a := arg_a pf argv in
  let b := arg_b pf argv in
  let n := arg_n pf argv in
  let k := arg_intensity pf argv in
  let r := numericalIntegration (integrand_of pf g) a b n k in
  run pf argv =
  {| exit_code := 0;
     trace := parse_events argv ++
              [ev_now (clock pf 0); ev_integrate g a b n k r;
               ev_now (clock pf 1);
               ev_cout (out_float {| precision := 15; field := ff_default |}
                          (result r));
               ev_cout (out_text " ");
               ev_cout (out_seconds {| precision := 6; field := ff_fixed |}
                          (clock pf 1 - clock pf 0));
               ev_cout out_endl] |}.
Proof.
  intros Hlen Hsel a b n k r. unfold run, main, arg_functionId in *.
  destruct (Z.ltb_spec (Z.of_nat (length argv)) 6); [lia |].
  cbn. rewrite Hsel. reflexivity.
Qed.

(** ** Properties of the driver *)

(** C2. [functionId = 1, 2, 3, 4] selects [f1, f2, f3, f4] respectively, and
    the one integration of the run is made with that integrand; any other
    [functionId] selects nothing: the run ends with the exit code [-1] and
    makes no integration. *)
Theorem dispatch_selects_integrand pf argv :
  (6 <= length argv)%nat ->
  let functionId := arg_functionId pf argv in
  let a := arg_a pf argv in
  let b := arg_b pf argv in
  let n := arg_n pf argv in
  let k := arg_intensity pf argv in
  let out := run pf argv in
  (functionId = 1 ->
   integrations_of (trace out) =
   [ev_integrate name_f1 a b n k (numericalIntegration (f1 pf) a b n k)]) /\
  (functionId = 2 ->
   integrations_of (trace out) =
   [ev_integrate name_f2 a b n k (numericalIntegration (f2 pf) a b n k)]) /\
  (functionId = 3 ->
   integrations_of (trace out) =
   [ev_integrate name_f3 a b n k (numericalIntegration (f3 pf) a b n k)]) /\
  (functionId = 4 ->
   integrations_of (trace out) =
   [ev_integrate name_f4 a b n k (numericalIntegration (f4 pf) a b n k)]) /\
  (~ In functionId [1; 2; 3; 4] ->
   select functionId = None /\
   integrations_of (trace out) = [] /\
   exit_code out = -1).
Proof.
  intros Hlen functionId a b n k out.
  split; [| split; [| split; [| split]]].
  1-4: intros Hid; unfold out;
    erewrite run_selected by (try exact Hlen; fold functionId; rewrite Hid;
                             reflexivity);
    reflexivity.
  intros Hout. apply select_none in Hout.
  split; [exact Hout |].
  unfold out. rewrite run_rejected by assumption. split; reflexivity.
Qed.

Lemma dispatch_selects_integrand_witness :
  let pf := sample_platform in
  let argv := ["prog"; "2"; "0"; "1"; "10"; "0"]%string in
  integrations_of (trace (run pf argv)) =
  [ev_integrate name_f2 (arg_a pf argv) (arg_b pf argv) (arg_n pf argv)
     (arg_intensity pf argv)
     (numericalIntegration (f2 pf) (arg_a pf argv) (arg_b pf argv)
        (arg_n pf argv) (arg_intensity pf argv))].
Proof.
  intros pf argv.
  apply (dispatch_selects_integrand pf argv).
  - cbn. lia.
  - vm_compute. reflexivity.
Defined.

(** C3. When at least five arguments are given and [functionId] is not one
    of 1, 2, 3, 4, the program writes
    [Error: Invalid function ID (must be 1, 2, 3, or 4)] and a newline to the
    standard error, returns [-1], makes no integration and writes nothing to
    the standard output. *)
Theorem invalid_function_id_rejected pf argv :
  (6 <= length argv)%nat ->
  ~ In (arg_functionId pf argv) [1; 2; 3; 4] ->
  let out := run pf argv in
  exit_code out = -1 /\
  exit_code out <> 0 /\
  stderr_of (trace out) =
    ("Error: Invalid function ID (must be 1, 2, 3, or 4)" ++ newline)%string /\
  integrations_of (trace out) = [] /\
  stdout_of (trace out) = [].
Proof.
  intros Hlen Hout out. apply select_none in Hout.
  unfold out. rewrite run_rejected by assumption.
  repeat split. cbn. discriminate.
Qed.

Lemma invalid_function_id_rejected_witness :
  let out := run sample_platform ["prog"; "7"; "0"; "1"; "10"; "0"]%string in
  exit_code out = -1 /\
  exit_code out <> 0 /\
  stderr_of (trace out) =
    ("Error: Invalid function ID (must be 1, 2, 3, or 4)" ++ newline)%string /\
  integrations_of (trace out) = [] /\
  stdout_of (trace out) = [].
Proof.
  apply (invalid_function_id_rejected sample_platform
           ["prog"; "7"; "0"; "1"; "10"; "0"]%string).
  - cbn. lia.
  - vm_compute. intros [H | [H | [H | [H | []]]]]; discriminate H.
Defined.

(** C4. Invoked under its program name ([argc >= 1]) with fewer than five
    arguments after it, the program writes
    [usage: <prog> <functionid> <a> <b> <n> <intensity>] and a newline to the
    standard error, [<prog>] being [argv[0]], and returns [-1]; no argument
    is parsed, no integration is made and nothing is written to the standard
    output.  (A process started with [argc = 0] has a null [argv[0]]: see
    [run_without_program_name].) *)
Theorem too_few_arguments_usage pf argv :
  (1 <= length argv < 6)%nat ->
  let out := run pf argv in
  exit_code out = -1 /\
  stderr_of (trace out) =
    ("usage: " ++ argv_at argv 0 ++ " <functionid> <a> <b> <n> <intensity>"
     ++ newline)%string /\
  parses_of (trace out) = [] /\
  integrations_of (trace out) = [] /\
  stdout_of (trace out) = [].
Proof.
  intros Hlen out. unfold out. rewrite run_usage by assumption.
  repeat split.
Qed.

Lemma too_few_arguments_usage_witness :
  let out := run sample_platform ["prog"; "1"; "0"; "1"; "10"]%string in
  exit_code out = -1 /\
  stderr_of (trace out) =
    ("usage: " ++ "prog" ++ " <functionid> <a> <b> <n> <intensity>"
     ++ newline)%string /\
  parses_of (trace out) = [] /\
  integrations_of (trace out) = [] /\
  stdout_of (trace out) = [].
Proof.
  apply (too_few_arguments_usage sample_platform
           ["prog"; "1"; "0"; "1"; "10"]%string).
  cbn. lia.
Defined.

(** C9. On a run with at least five arguments and [functionId] among 1, 2,
    3, 4, the standard output receives, in this order: the result under
    precision 15 in the default floating format, one space, the elapsed time
    in seconds under precision 6 in fixed format, and the end of line; the
    program returns [0]. *)
Theorem successful_run_output pf argv :
  (6 <= length argv)%nat ->
  In (arg_functionId pf argv) [1; 2; 3; 4] ->
  let out := run pf argv in
  exists g,
    select (arg_functionId pf argv) = Some g /\
    exit_code out = 0 /\
    stdout_of (trace out) =
      [out_float {| precision := 15; field := ff_default |}
         (result (numericalIntegration (integrand_of pf g) (arg_a pf argv)
                    (arg_b pf argv) (arg_n pf argv) (arg_intensity pf argv)));
       out_text " ";
       out_seconds {| precision := 6; field := ff_fixed |}
         (clock pf 1 - clock pf 0);
       out_endl] /\
    stderr_of (trace out) = EmptyString.
Proof.
  intros Hlen Hin out.
  destruct (select (arg_functionId pf argv)) as [g |] eqn:Hsel.
  - exists g. unfold out. rewrite (run_selected pf argv g Hlen Hsel).
    repeat split.
  - apply select_none in Hsel. contradiction.
Qed.

Lemma successful_run_output_witness :
  let pf := sample_platform in
  let argv := ["prog"; "1"; "0"; "1"; "10"; "0"]%string in
  let out := run pf argv in
  exists g,
    select (arg_functionId pf argv) = Some g /\
    exit_code out = 0 /\
    stdout_of (trace out) =
      [out_float {| precision := 15; field := ff_default |}
         (result (numericalIntegration (integrand_of pf g) (arg_a pf argv)
                    (arg_b pf argv) (arg_n pf argv) (arg_intensity pf argv)));
       out_text " ";
       out_seconds {| precision := 6; field := ff_fixed |}
         (clock pf 1 - clock pf 0);
       out_endl] /\
    stderr_of (trace out) = EmptyString.
Proof.
  intros pf argv.
  apply (successful_run_output pf argv).
  - cbn. lia.
  - vm_compute. left. reflexivity.
Defined.

(** ** Further facts about binary32 rounding *)

Lemma shr_1_spec mrs :
  0 <= shr_m mrs ->
  shr_1 mrs = {| shr_m := shr_m mrs / 2;
                 shr_r := Z.odd (shr_m mrs);
                 shr_s := shr_r mrs || shr_s mrs |}.
Proof.
  destruct mrs as [m r s]. cbn [shr_m shr_r shr_s]. intros Hm.
  rewrite <- Z.div2_div.
  destruct m as [| [p | p |] | p]; try reflexivity; lia.
Qed.

Lemma mod_pow2_succ M k :
  0 <= k ->
  M mod 2 ^ (k + 1) = M mod 2 ^ k + 2 ^ k * ((M / 2 ^ k) mod 2).
Proof.
  intros Hk. rewrite Z.pow_add_r, Z.pow_1_r by lia.
  apply Z.rem_mul_r; lia.
Qed.

(** After [k >= 1] shifts of the mantissa [M]: the quotient, the last bit
    shifted out (round bit) and whether a lower bit was set (sticky bit). *)
Lemma shr_iter_spec M : forall k,
  0 <= M ->
  iter_pos shr_1 k (Build_shr_record M false false) =
  {| shr_m := M / 2 ^ Z.pos k;
     shr_r := Z.odd (M / 2 ^ (Z.pos k - 1));
     shr_s := negb (M mod 2 ^ (Z.pos k - 1) =? 0) |}.
Proof.
  intros k HM. rewrite iter_pos_iter.
  induction k as [| k IH] using Pos.peano_ind.
  - cbn [Pos.iter]. rewrite shr_1_spec by (cbn; lia). cbn [shr_m shr_r shr_s].
    change (2 ^ (1 - 1)) with 1. rewrite Z.div_1_r, Z.mod_1_r. reflexivity.
  - rewrite Pos.iter_succ, IH. rewrite shr_1_spec.
    2:{ cbn [shr_m]. apply Z.div_pos; lia. }
    cbn [shr_m shr_r shr_s]. rewrite Pos2Z.inj_succ.
    replace (Z.succ (Z.pos k) - 1) with (Z.pos k) by lia.
    rewrite Z.div_div by lia.
    rewrite (Z.pow_succ_r 2 (Z.pos k)), (Z.mul_comm 2) by lia. f_equal.
    replace (Z.pos k) with (Z.pos k - 1 + 1) at 3 by lia.
    rewrite mod_pow2_succ by lia.
    pose proof (Z.mod_pos_bound M (2 ^ (Z.pos k - 1))) as Hlo.
    assert (Hp : 0 < 2 ^ (Z.pos k - 1)) by (apply Z.pow_pos_nonneg; lia).
    specialize (Hlo Hp).
    rewrite (Zmod_odd (M / 2 ^ (Z.pos k - 1))).
    destruct (Z.odd (M / 2 ^ (Z.pos k - 1))),
             (Z.eqb_spec (M mod 2 ^ (Z.pos k - 1)) 0) as [H0 | H0];
      cbn [orb negb];
      match goal with
      | |- _ = negb (?x =? 0) => destruct (Z.eqb_spec x 0)
      end; cbn [negb]; first [reflexivity | lia].
Qed.

(** Rounding a positive mantissa in range: the float obtained is finite, of
    the same sign, of a magnitude within one binade of the input, and in
    canonical form when the input has at least as many digits as the format
    keeps. *)
Lemma round_aux_bounds sx p e l :
  -149 < Z.log2 (Z.pos p) + 1 + e <= 127 -> e <= 104 ->
  exists m' e',
    binary_round_aux F32.prec F32.emax sx (Z.pos p) e l =
      S754_finite sx m' e' /\
    Z.log2 (Z.pos p) + e <= Z.log2 (Z.pos m') + e'
      <= Z.log2 (Z.pos p) + e + 1 /\
    e <= e' /\
    (e <= Z.max (Z.log2 (Z.pos p) + 1 + e - 24) (-149) ->
     Z.max (Z.log2 (Z.pos m') + 1 + e' - 24) (-149) = e').
Proof.
  intros Hd He.
  unfold binary_round_aux, shr_fexp.
  rewrite Zdigits2_log2, fexp32_eq by lia.
  set (s1 := Z.max (Z.log2 (Z.pos p) + 1 + e - 24) (-149) - e).
  pose proof (shr_spec (shr_record_of_loc (Z.pos p) l) e s1) as [Hm1 He1].
  { rewrite shr_m_of_loc. lia. }
  destruct (shr (shr_record_of_loc (Z.pos p) l) e s1) as [mrs1 e1].
  cbn [fst snd] in Hm1, He1. rewrite shr_m_of_loc in Hm1.
  pose proof (Z.log2_nonneg (Z.pos p)) as Hl0.
  destruct (log2_div_pow2 (Z.pos p) (Z.max 0 s1)) as [Hpos1 Hlog1];
    [lia | unfold s1; lia |].
  rewrite <- Hm1 in Hpos1, Hlog1.
  pose proof (round_nearest_even_bounds (shr_m mrs1) (loc_of_shr_record mrs1))
    as Hrne.
  set (m2 := round_nearest_even (shr_m mrs1) (loc_of_shr_record mrs1)) in *.
  assert (Hlog2 : Z.log2 (shr_m mrs1) <= Z.log2 m2 <= Z.log2 (shr_m mrs1) + 1).
  { split.
    - apply Z.log2_le_mono. lia.
    - transitivity (Z.log2 (Z.succ (shr_m mrs1))).
      + apply Z.log2_le_mono. lia.
      + apply Z.log2_succ_le. }
  rewrite Zdigits2_log2, fexp32_eq by lia.
  set (s2 := Z.max (Z.log2 m2 + 1 + e1 - 24) (-149) - e1).
  pose proof (shr_spec (shr_record_of_loc m2 loc_Exact) e1 s2) as [Hm3 He3].
  { rewrite shr_m_of_loc. lia. }
  destruct (shr (shr_record_of_loc m2 loc_Exact) e1 s2) as [mrs3 e3].
  cbn [fst snd] in Hm3, He3. rewrite shr_m_of_loc in Hm3.
  pose proof (Z.log2_nonneg m2) as Hl2.
  destruct (log2_div_pow2 m2 (Z.max 0 s2)) as [Hpos3 Hlog3];
    [lia | unfold s1, s2 in *; lia |].
  rewrite <- Hm3 in Hpos3, Hlog3.
  destruct (shr_m mrs3) as [| m3 | m3]; try lia.
  change (F32.emax - F32.prec) with 104.
  destruct (Z.leb_spec e3 104) as [_ | Hbig].
  - exists m3, e3. split; [reflexivity |].
    unfold s1, s2 in *. repeat split; lia.
  - unfold s1, s2 in *. lia.
Qed.

(** The float of a positive [int]: finite, positive, canonical, and within
    one binade of the integer. *)
Lemma of_int_pos_bounds i :
  0 < i <= int_max ->
  exists m e,
    F32.of_int i = S754_finite false m e /\
    Z.log2 i <= Z.log2 (Z.pos m) + e <= Z.log2 i + 1 /\
    Z.max (Z.log2 (Z.pos m) + 1 + e - 24) (-149) = e.
Proof.
  intros Hi. destruct i as [| p | p]; try lia.
  assert (Hl : 0 <= Z.log2 (Z.pos p) < 31).
  { split; [apply Z.log2_nonneg |].
    apply Z.log2_lt_pow2; unfold int_max in *; lia. }
  unfold F32.of_int, binary_normalize, binary_round.
  rewrite fexp32_eq, digits2_pos_log2.
  set (e' := Z.max (Z.log2 (Z.pos p) + 1 + 0 - 24) (-149)).
  pose proof (shl_align_spec p 0 e') as [Hmz Hez].
  destruct (shl_align p 0 e') as [mz ez]. cbn [fst snd] in Hmz, Hez.
  assert (Hlz : Z.log2 (Z.pos mz) + ez = Z.log2 (Z.pos p)).
  { rewrite Hmz, Z.log2_mul_pow2 by lia. lia. }
  destruct (round_aux_bounds false mz ez loc_Exact)
    as (m & e & Hr & Hb & _ & Hc); [lia | lia |].
  exists m, e. split; [exact Hr |]. split; [lia |].
  apply Hc. unfold e' in *. lia.
Qed.

(** Adding [0.5f] to a positive float of exponent at least -24 rounds the
    exact sum, written with exponent -24. *)
Lemma add_half_round m e P :
  -24 <= e ->
  Z.pos P = Z.pos m * 2 ^ (e + 24) + 2 ^ 23 ->
  F32.add (S754_finite false m e) F32.half =
  binary_round F32.prec F32.emax false P (-24).
Proof.
  intros He HP. unfold F32.add, F32.half, SFadd.
  replace (Z.min e (-24)) with (-24) by lia.
  pose proof (shl_align_spec m e (-24)) as [Hmz _].
  cbn [cond_Zopp].
  change (fst (shl_align 8388608 (-24) (-24))) with 8388608%positive.
  replace (Z.max 0 (e - -24)) with (e + 24) in Hmz by lia.
  rewrite <- Pos2Z.inj_add. cbn [binary_normalize].
  f_equal. apply Pos2Z.inj. rewrite Pos2Z.inj_add, Hmz, HP. reflexivity.
Qed.

(** A sum [m * 2^s + c] with [0 < c < 2^(s-1)] rounds down to [m]. *)
Lemma round_aux_below_half sx m e s c P :
  0 < s -> 0 < c < 2 ^ (s - 1) ->
  Z.pos P = Z.pos m * 2 ^ s + c ->
  Z.log2 (Z.pos m) = 23 -> -149 <= e + s <= 104 ->
  binary_round_aux F32.prec F32.emax sx (Z.pos P) e loc_Exact =
  S754_finite sx m (e + s).
Proof.
  intros Hs Hc HP Hlm Hes.
  assert (H2s : 2 ^ s = 2 * 2 ^ (s - 1)).
  { rewrite <- Z.pow_succ_r by lia. f_equal. lia. }
  assert (Hpow : 0 < 2 ^ (s - 1)) by (apply Z.pow_pos_nonneg; lia).
  assert (HlP : Z.log2 (Z.pos P) = 23 + s).
  { apply Z.log2_unique; [lia |].
    pose proof (Z.log2_spec (Z.pos m) ltac:(lia)) as Hspec.
    rewrite Hlm in Hspec. rewrite HP.
    replace (Z.succ (23 + s)) with (24 + s) by lia.
    rewrite !Z.pow_add_r by lia.
    change (Z.succ 23) with 24 in Hspec. nia. }
  assert (Hq : Z.pos P / 2 ^ s = Z.pos m).
  { rewrite HP, Z.div_add_l, Z.div_small by lia. lia. }
  assert (Hq1 : Z.pos P / 2 ^ (s - 1) = 2 * Z.pos m).
  { rewrite HP, H2s.
    replace (Z.pos m * (2 * 2 ^ (s - 1)) + c)
      with (2 * Z.pos m * 2 ^ (s - 1) + c) by lia.
    rewrite Z.div_add_l, Z.div_small by lia. lia. }
  assert (Hr1 : Z.pos P mod 2 ^ (s - 1) = c).
  { rewrite HP, H2s.
    replace (Z.pos m * (2 * 2 ^ (s - 1)) + c)
      with (c + 2 * Z.pos m * 2 ^ (s - 1)) by lia.
    rewrite Z.mod_add, Z.mod_small by lia. reflexivity. }
  unfold binary_round_aux, shr_fexp.
  rewrite Zdigits2_log2, fexp32_eq, HlP by lia.
  replace (Z.max (23 + s + 1 + e - 24) (-149) - e) with s by lia.
  cbn [shr_record_of_loc].
  destruct s as [| sp | sp]; try lia. cbn [shr].
  rewrite shr_iter_spec by lia. rewrite Hq, Hq1, Hr1.
  rewrite Z.odd_mul. cbn [Z.odd andb].
  destruct (Z.eqb_spec c 0) as [Hc0 | _]; [lia |].
  cbn [negb shr_m loc_of_shr_record round_nearest_even].
  rewrite Zdigits2_log2, fexp32_eq, Hlm by lia.
  replace (Z.max (23 + 1 + (e + Z.pos sp) - 24) (-149) - (e + Z.pos sp))
    with 0 by lia.
  cbn [shr_record_of_loc shr shr_m].
  change (F32.emax - F32.prec) with 104.
  destruct (Z.leb_spec (e + Z.pos sp) 104); [reflexivity | lia].
Qed.

(** From [2^24] on, [(float)i + 0.5f] is [(float)i]: the half is lost. *)
Lemma add_half_lost i :
  2 ^ 24 <= i <= int_max ->
  (F32.of_int i + F32.half)%f32 = F32.of_int i.
Proof.
  intros Hi.
  destruct (of_int_pos_bounds i) as (m & e & Hf & Hb & Hc); [lia |].
  assert (Hli : 24 <= Z.log2 i) by (apply Z.log2_le_pow2; lia).
  assert (Hlm : Z.log2 (Z.pos m) = 23) by lia.
  assert (Hli' : Z.log2 i < 31).
  { apply Z.log2_lt_pow2; unfold int_max in *; lia. }
  rewrite Hf.
  assert (Hlt : 2 ^ 23 < 2 ^ (e + 24 - 1)) by (apply Z.pow_lt_mono_r; lia).
  assert (Hpow : 2 ^ (e + 24) = 2 * 2 ^ (e + 24 - 1)).
  { rewrite <- Z.pow_succ_r by lia. f_equal. lia. }
  assert (HP : exists P, Z.pos P = Z.pos m * 2 ^ (e + 24) + 2 ^ 23).
  { exists (Z.to_pos (Z.pos m * 2 ^ (e + 24) + 2 ^ 23)).
    apply Z2Pos.id. nia. }
  destruct HP as (P & HP).
  rewrite (add_half_round m e P ltac:(lia) HP).
  unfold binary_round.
  assert (HlP : Z.log2 (Z.pos P) = e + 47).
  { rewrite HP. apply Z.log2_unique; [lia |].
    pose proof (Z.log2_spec (Z.pos m) ltac:(lia)) as Hspec.
    rewrite Hlm in Hspec. change (Z.succ 23) with 24 in Hspec.
    replace (Z.succ (e + 47)) with (24 + (e + 24)) by lia.
    replace (e + 47) with (23 + (e + 24)) by lia.
    rewrite !Z.pow_add_r by lia. nia. }
  rewrite fexp32_eq, digits2_pos_log2, HlP.
  replace (Z.max (e + 47 + 1 + -24 - 24) (-149)) with e by lia.
  pose proof (shl_align_spec P (-24) e) as [Hmz Hez].
  destruct (shl_align P (-24) e) as [mz ez]. cbn [fst snd] in Hmz, Hez.
  replace (Z.max 0 (-24 - e)) with 0 in * by lia.
  rewrite Z.mul_1_r in Hmz. injection Hmz as ->.
  replace ez with (-24) by lia.
  pose proof (round_aux_below_half false m (-24) (e + 24) (2 ^ 23) P) as H.
  replace (-24 + (e + 24)) with e in H by lia.
  apply H; solve [lia | exact HP].
Qed.

(** Below [2^23], [(float)i + 0.5f] is exactly [i + 1/2]. *)
Lemma add_half_exact i :
  0 <= i < 2 ^ 23 ->
  exists m e,
    (F32.of_int i + F32.half)%f32 = S754_finite false m e /\
    e <= -1 /\ Z.pos m = (2 * i + 1) * 2 ^ (-1 - e).
Proof.
  intros Hi. destruct (Z.eq_dec i 0) as [-> | Hnz].
  { exists 8388608%positive, (-24). repeat split; lia. }
  destruct (of_int_small i) as (q & Hf & Hq); [lia |].
  assert (Hl : 0 <= Z.log2 i < 23).
  { split; [apply Z.log2_nonneg | apply Z.log2_lt_pow2; lia]. }
  assert (Hl1 : Z.log2 (2 * i + 1) = Z.log2 i + 1).
  { rewrite Z.log2_succ_double by lia. lia. }
  set (L := Z.log2 i) in *.
  assert (HP : exists P, Z.pos P = (2 * i + 1) * 2 ^ 23).
  { exists (Z.to_pos ((2 * i + 1) * 2 ^ 23)). apply Z2Pos.id. lia. }
  destruct HP as (P & HP).
  assert (HQ : exists Q, Z.pos Q = (2 * i + 1) * 2 ^ (22 - L)).
  { exists (Z.to_pos ((2 * i + 1) * 2 ^ (22 - L))). apply Z2Pos.id.
    apply Z.mul_pos_pos; [lia | apply Z.pow_pos_nonneg; lia]. }
  destruct HQ as (Q & HQ).
  exists Q, (L - 23). rewrite Hf.
  assert (HlP : Z.log2 (Z.pos P) = L + 24).
  { rewrite HP, Z.log2_mul_pow2 by lia. lia. }
  split; [| split; [lia | rewrite HQ; do 2 f_equal; lia]].
  rewrite (add_half_round q (L - 23) P); [| lia |].
  - replace (L - 23) with (Z.log2 (Z.pos P) + -24 - 23) by lia.
    apply binary_round_exact; rewrite HlP; [lia |].
    right. split; [lia |].
    rewrite HP, HQ, <- Z.mul_assoc, <- Z.pow_add_r by lia.
    do 2 f_equal. lia.
  - rewrite HP, Hq, <- Z.mul_assoc, <- Z.pow_add_r by lia.
    replace (23 - L + (L - 23 + 24)) with 24 by lia. lia.
Qed.

(** A sum [m * 2^s + 2^(s-1)], halfway between [m] and [m + 1], rounds to
    the even one of the two. *)
Lemma round_aux_tie sx m e s P :
  0 < s ->
  Z.pos P = Z.pos m * 2 ^ s + 2 ^ (s - 1) ->
  Z.log2 (Z.pos m) = 23 -> -149 <= e + s <= 103 ->
  binary_round_aux F32.prec F32.emax sx (Z.pos P) e loc_Exact =
  if Z.even (Z.pos m) then S754_finite sx m (e + s)
  else if Z.pos m + 1 =? 2 ^ 24 then S754_finite sx 8388608 (e + s + 1)
  else S754_finite sx (m + 1) (e + s).
Proof.
  intros Hs HP Hlm Hes.
  assert (H2s : 2 ^ s = 2 * 2 ^ (s - 1)).
  { rewrite <- Z.pow_succ_r by lia. f_equal. lia. }
  assert (Hpow : 0 < 2 ^ (s - 1)) by (apply Z.pow_pos_nonneg; lia).
  pose proof (Z.log2_spec (Z.pos m) ltac:(lia)) as Hspec.
  rewrite Hlm in Hspec. change (Z.succ 23) with 24 in Hspec.
  assert (HlP : Z.log2 (Z.pos P) = 23 + s).
  { apply Z.log2_unique; [lia |]. rewrite HP.
    replace (Z.succ (23 + s)) with (24 + s) by lia.
    rewrite !Z.pow_add_r by lia. nia. }
  assert (Hq : Z.pos P / 2 ^ s = Z.pos m).
  { rewrite HP, Z.div_add_l, Z.div_small by lia. lia. }
  assert (Hq1 : Z.pos P / 2 ^ (s - 1) = 2 * Z.pos m + 1).
  { rewrite HP, H2s.
    replace (Z.pos m * (2 * 2 ^ (s - 1)) + 2 ^ (s - 1))
      with ((2 * Z.pos m + 1) * 2 ^ (s - 1)) by lia.
    apply Z.div_mul. lia. }
  assert (Hr1 : Z.pos P mod 2 ^ (s - 1) = 0).
  { rewrite HP, H2s.
    replace (Z.pos m * (2 * 2 ^ (s - 1)) + 2 ^ (s - 1))
      with ((2 * Z.pos m + 1) * 2 ^ (s - 1)) by lia.
    apply Z.mod_mul. lia. }
  unfold binary_round_aux, shr_fexp.
  rewrite Zdigits2_log2, fexp32_eq, HlP by lia.
  replace (Z.max (23 + s + 1 + e - 24) (-149) - e) with s by lia.
  cbn [shr_record_of_loc].
  destruct s as [| sp | sp]; try lia. cbn [shr].
  rewrite shr_iter_spec by lia. rewrite Hq, Hq1, Hr1.
  rewrite (Z.add_comm (2 * Z.pos m) 1), Z.odd_add_mul_2.
  cbn [Z.odd Z.eqb negb].
  cbn [shr_m loc_of_shr_record round_nearest_even].
  change (F32.emax - F32.prec) with 104.
  destruct (Z.even (Z.pos m)) eqn:Heven.
  - rewrite Zdigits2_log2, fexp32_eq, Hlm by lia.
    replace (Z.max (23 + 1 + (e + Z.pos sp) - 24) (-149) - (e + Z.pos sp))
      with 0 by lia.
    cbn [shr_record_of_loc shr shr_m].
    destruct (Z.leb_spec (e + Z.pos sp) 104); [reflexivity | lia].
  - destruct (Z.eqb_spec (Z.pos m + 1) (2 ^ 24)) as [Htop | Htop].
    + rewrite Htop. change (Zdigits2 (2 ^ 24)) with 25.
      rewrite fexp32_eq.
      replace (Z.max (25 + (e + Z.pos sp) - 24) (-149) - (e + Z.pos sp))
        with 1 by lia.
      cbn [shr_record_of_loc shr iter_pos]. 
      change (shr_1 {| shr_m := 2 ^ 24; shr_r := false; shr_s := false |})
        with {| shr_m := 8388608; shr_r := false; shr_s := false |}.
      cbn [shr_m].
      destruct (Z.leb_spec (e + Z.pos sp + 1) 104); [reflexivity | lia].
    + assert (Hlm1 : Z.log2 (Z.pos m + 1) = 23).
      { apply Z.log2_unique; [lia |]. change (Z.succ 23) with 24. lia. }
      rewrite Zdigits2_log2, fexp32_eq, Hlm1 by lia.
      replace (Z.max (23 + 1 + (e + Z.pos sp) - 24) (-149) - (e + Z.pos sp))
        with 0 by lia.
      cbn [shr_record_of_loc shr shr_m].
      rewrite <- Pos2Z.inj_add with (q := 1%positive).
      destruct (Z.leb_spec (e + Z.pos sp) 104); [reflexivity | lia].
Qed.

(** Between [2^23] and [2^24], [(float)i + 0.5f] is halfway between two
    floats and is rounded to the even integer next to [i + 1/2]. *)
Lemma add_half_tie i :
  2 ^ 23 <= i < 2 ^ 24 ->
  (F32.of_int i + F32.half)%f32 =
  F32.of_int (if Z.even i then i else i + 1).
Proof.
  intros Hi.
  assert (Hli : Z.log2 i = 23).
  { apply Z.log2_unique; [lia |]. change (Z.succ 23) with 24. lia. }
  destruct (of_int_small i) as (q & Hf & Hq); [lia |].
  rewrite Hli in Hf, Hq. change (23 - 23) with 0 in *.
  rewrite Z.pow_0_r, Z.mul_1_r in Hq.
  assert (HP : exists P, Z.pos P = Z.pos q * 2 ^ 24 + 2 ^ 23).
  { exists (Z.to_pos (Z.pos q * 2 ^ 24 + 2 ^ 23)). apply Z2Pos.id. lia. }
  destruct HP as (P & HP).
  rewrite Hf at 1. rewrite (add_half_round q 0 P); [| lia | exact HP].
  assert (HlP : Z.log2 (Z.pos P) = 47).
  { apply Z.log2_unique; [lia |]. change (Z.succ 47) with 48. lia. }
  unfold binary_round.
  rewrite fexp32_eq, digits2_pos_log2, HlP.
  change (Z.max (47 + 1 + -24 - 24) (-149)) with 0.
  pose proof (shl_align_spec P (-24) 0) as [Hmz Hez].
  destruct (shl_align P (-24) 0) as [mz ez]. cbn [fst snd] in Hmz, Hez.
  change (Z.max 0 (-24 - 0)) with 0 in Hmz, Hez.
  rewrite Z.mul_1_r in Hmz. injection Hmz as ->.
  replace ez with (-24) by lia.
  rewrite (round_aux_tie false q (-24) 24 P);
    [| lia | exact HP | rewrite Hq; exact Hli | lia].
  rewrite Hq. change (-24 + 24) with 0.
  destruct (Z.even i) eqn:Heven; [symmetry; exact Hf |].
  destruct (Z.eqb_spec (i + 1) (2 ^ 24)) as [Htop | Htop].
  - rewrite Htop. reflexivity.
  - destruct (of_int_small (i + 1)) as (q' & Hf' & Hq'); [lia |].
    assert (Hli' : Z.log2 (i + 1) = 23).
    { apply Z.log2_unique; [lia |]. change (Z.succ 23) with 24. lia. }
    rewrite Hli' in Hf', Hq'. change (23 - 23) with 0 in *.
    rewrite Z.pow_0_r, Z.mul_1_r in Hq'.
    rewrite Hf'. f_equal. apply Pos2Z.inj. rewrite Pos2Z.inj_add. lia.
Qed.

(** In every case [(float)i + 0.5f] is a positive finite float. *)
Lemma add_half_finite i :
  0 <= i <= int_max ->
  exists m e, (F32.of_int i + F32.half)%f32 = S754_finite false m e.
Proof.
  intros Hi.
  assert (Hpos : forall j, 0 < j <= int_max ->
            exists m e, F32.of_int j = S754_finite false m e).
  { intros j Hj. destruct (of_int_finite j) as (m & e & He);
      [lia | unfold in_int, int_min, int_max in *; lia |].
    destruct (Z.ltb_spec j 0); [lia |]. eauto. }
  destruct (Z.lt_ge_cases i (2 ^ 23)) as [Hlo | Hhi].
  - destruct (add_half_exact i) as (m & e & He & _); [lia |]. eauto.
  - destruct (Z.lt_ge_cases i (2 ^ 24)) as [Hmid | Hbig].
    + rewrite add_half_tie by lia. apply Hpos.
      unfold int_max in *. destruct (Z.even i); lia.
    + rewrite add_half_lost by lia. apply Hpos. lia.
Qed.

(** ** Further properties of the integrator *)

Lemma in_indices n i : In i (indices n) <-> 0 <= i < n.
Proof.
  unfold indices, indices_from. rewrite in_map_iff. split.
  - intros (c & <- & Hc). apply in_seq in Hc. lia.
  - intros Hi. exists (Z.to_nat i). split; [lia |]. apply in_seq. lia.
Qed.

(** The step of a run with [n = 0] is infinite or NaN: its product with the
    initial sum [0.0f] is NaN. *)
Lemma zero_times_zero_step a b :
  (F32.zero * ((b - a) / F32.of_int 0))%f32 = S754_nan.
Proof.
  change (F32.of_int 0) with (S754_zero false).
  destruct (b - a)%f32 as [s | s | | s m e]; reflexivity.
Qed.

(** X1. With [n = 0] the loop body never runs and the value returned is NaN,
    whatever the integrand and the bounds: the step is [(b - a) / 0], which
    is infinite or NaN, and [0 * step] is NaN. *)
Theorem zero_count_returns_nan f a b k :
  numericalIntegration f a b 0 k =
  {| result := S754_nan; evaluations := [] |}.
Proof.
  unfold numericalIntegration. rewrite for_loop_done by lia.
  cbn [sum calls]. rewrite zero_times_zero_step. reflexivity.
Qed.

(** X2. A NaN bound, or two infinite bounds of the same sign, make the value
    returned NaN, whatever the integrand and the sample count. *)
Theorem nan_bounds_give_nan f a b n k :
  a = S754_nan \/ b = S754_nan \/
  (exists s, a = S754_infinity s /\ b = S754_infinity s) ->
  result (numericalIntegration f a b n k) = S754_nan.
Proof.
  intros Hab. rewrite result_accumulate.
  assert (Hsub : (b - a)%f32 = S754_nan).
  { destruct Hab as [-> | [-> | (s & -> & ->)]].
    - destruct b; reflexivity.
    - reflexivity.
    - destruct s; reflexivity. }
  rewrite Hsub. change (S754_nan / F32.of_int n)%f32 with S754_nan.
  apply mul_nan_r.
Qed.

Lemma nan_bounds_give_nan_witness :
  result (numericalIntegration (fun x _ => x) S754_nan F32.one 3 0) = S754_nan.
Proof.
  apply (nan_bounds_give_nan (fun x _ => x) S754_nan F32.one 3 0).
  left. reflexivity.
Defined.

Lemma accumulate_nan f a dx k : forall idx,
  accumulate f a dx k S754_nan idx = S754_nan.
Proof.
  unfold accumulate. induction idx as [| i idx IH]; [reflexivity |].
  cbn [fold_left]. exact IH.
Qed.

Lemma accumulate_nan_sample f a dx k i : forall idx s0,
  In i idx -> f (midpoint a dx i) k = S754_nan ->
  accumulate f a dx k s0 idx = S754_nan.
Proof.
  induction idx as [| j idx IH]; intros s0 Hin Hnan; [contradiction |].
  unfold accumulate. cbn [fold_left].
  destruct Hin as [-> | Hin].
  - rewrite Hnan, add_nan_r. apply accumulate_nan.
  - apply IH; assumption.
Qed.

(** X3. If the integrand returns NaN at one of the midpoints, the value
    returned is NaN. *)
Theorem nan_sample_gives_nan f a b n k i :
  0 <= i < n ->
  let dx := ((b - a) / F32.of_int n)%f32 in
  f (midpoint a dx i) k = S754_nan ->
  result (numericalIntegration f a b n k) = S754_nan.
Proof.
  intros Hi dx Hnan. rewrite result_accumulate. fold dx.
  rewrite (accumulate_nan_sample f a dx k i); [reflexivity | | exact Hnan].
  apply in_indices. exact Hi.
Qed.

Lemma nan_sample_gives_nan_witness :
  result (numericalIntegration (fun _ _ => S754_nan) F32.zero F32.one 3 0)
  = S754_nan.
Proof.
  apply (nan_sample_gives_nan (fun _ _ => S754_nan) F32.zero F32.one 3 0 1).
  - lia.
  - reflexivity.
Defined.

Lemma accumulate_ext f g a dx k : forall idx s0,
  (forall i, In i idx -> f (midpoint a dx i) k = g (midpoint a dx i) k) ->
  accumulate f a dx k s0 idx = accumulate g a dx k s0 idx.
Proof.
  unfold accumulate. induction idx as [| j idx IH]; intros s0 Hfg.
  - reflexivity.
  - cbn [fold_left]. rewrite (Hfg j) by (left; reflexivity).
    apply IH. intros i Hi. apply Hfg. right. exact Hi.
Qed.

(** X4. The routine uses the integrand only at the [n] midpoints: two
    integrands that agree there (with the given intensity) give the same
    value and the same calls, whatever they do elsewhere. *)
Theorem integration_depends_on_samples f g a b n k :
  let dx := ((b - a) / F32.of_int n)%f32 in
  (forall i, 0 <= i < n -> f (midpoint a dx i) k = g (midpoint a dx i) k) ->
  numericalIntegration f a b n k = numericalIntegration g a b n k.
Proof.
  intros dx Hfg.
  pose proof (result_accumulate f a b n k) as Hrf.
  pose proof (result_accumulate g a b n k) as Hrg.
  pose proof (evaluations_midpoints f a b n k) as Hef.
  pose proof (evaluations_midpoints g a b n k) as Heg.
  cbn zeta in *. fold dx in Hrf, Hrg, Hef, Heg.
  rewrite (accumulate_ext f g) in Hrf
    by (intros i Hi; apply Hfg, in_indices, Hi).
  destruct (numericalIntegration f a b n k) as [rf ef].
  destruct (numericalIntegration g a b n k) as [rg eg].
  cbn [result evaluations] in *. congruence.
Qed.

Lemma integration_depends_on_samples_witness :
  numericalIntegration (fun x _ => x) F32.zero F32.one 2 0 =
  numericalIntegration (fun x _ => (x + F32.zero)%f32) F32.zero F32.one 2 0.
Proof.
  apply (integration_depends_on_samples
           (fun x _ => x) (fun x _ => (x + F32.zero)%f32) F32.zero F32.one 2 0).
  intros i Hi. assert (i = 0 \/ i = 1) as [-> | ->] by lia; reflexivity.
Defined.

(** X5. Up to index [2^23 - 1] the factor [(i + 0.5f)] of the midpoint is
    exact: it is the float of value [i + 1/2]. *)
Theorem midpoint_factor_exact a dx i :
  0 <= i < 2 ^ 23 ->
  exists m e,
    midpoint a dx i = (a + S754_finite false m e * dx)%f32 /\
    e <= -1 /\ Z.pos m = (2 * i + 1) * 2 ^ (-1 - e).
Proof.
  intros Hi. destruct (add_half_exact i Hi) as (m & e & Hsum & He & Hm).
  exists m, e. unfold midpoint. rewrite Hsum. auto.
Qed.

Lemma midpoint_factor_exact_witness :
  exists m e,
    midpoint F32.zero F32.one 5 =
      (F32.zero + S754_finite false m e * F32.one)%f32 /\
    e <= -1 /\ Z.pos m = (2 * 5 + 1) * 2 ^ (-1 - e).
Proof.
  apply (midpoint_factor_exact F32.zero F32.one 5). lia.
Defined.

Lemma nth_error_indices n i :
  0 <= i < n -> nth_error (indices n) (Z.to_nat i) = Some i.
Proof.
  intros Hi. unfold indices, indices_from.
  rewrite nth_error_map, nth_error_seq.
  destruct (Nat.ltb_spec (Z.to_nat i) (Z.to_nat n)); [| lia].
  cbn. f_equal. lia.
Qed.

(** X6. From index [2^23] on the half of [(i + 0.5f)] is lost to rounding:
    the point at which the integrand is called is [a + j * dx] for an
    integer [j], namely [i] itself from [2^24] on, and the even one of [i]
    and [i + 1] below.  In a run with more than [2^24] samples the call of
    index [i >= 2^24] is made at [a + (float)i * dx]. *)
Theorem midpoint_half_lost f a b n k i :
  2 ^ 23 <= i < n -> n <= int_max ->
  let dx := ((b - a) / F32.of_int n)%f32 in
  let j := if (i <? 2 ^ 24) && Z.odd i then i + 1 else i in
  midpoint a dx i = (a + F32.of_int j * dx)%f32 /\
  nth_error (evaluations (numericalIntegration f a b n k)) (Z.to_nat i) =
    Some ((a + F32.of_int j * dx)%f32, k).
Proof.
  intros Hi Hn dx j.
  assert (Hmid : midpoint a dx i = (a + F32.of_int j * dx)%f32).
  { unfold midpoint, j. destruct (Z.ltb_spec i (2 ^ 24)) as [Hlt | Hge].
    - rewrite add_half_tie by lia. rewrite <- Z.negb_odd.
      destruct (Z.odd i); reflexivity.
    - rewrite add_half_lost by lia. reflexivity. }
  split; [exact Hmid |].
  rewrite evaluations_midpoints. fold dx.
  rewrite nth_error_map, nth_error_indices by lia. cbn [option_map].
  rewrite Hmid. reflexivity.
Qed.

Lemma midpoint_half_lost_witness :
  let dx := ((F32.one - F32.zero) / F32.of_int 8388610)%f32 in
  midpoint F32.zero dx 8388609 = (F32.zero + F32.of_int 8388610 * dx)%f32 /\
  nth_error
    (evaluations
       (numericalIntegration (fun x _ => x) F32.zero F32.one 8388610 0))
    (Z.to_nat 8388609) =
    Some ((F32.zero + F32.of_int 8388610 * dx)%f32, 0).
Proof.
  apply (midpoint_half_lost (fun x _ => x) F32.zero F32.one 8388610 0 8388609).
  - lia.
  - unfold int_max. lia.
Defined.

Lemma sub_self_finite s m e :
  (S754_finite s m e - S754_finite s m e)%f32 = F32.zero.
Proof.
  unfold F32.sub, SFsub. rewrite Z.sub_diag. reflexivity.
Qed.

(** With a step [+0] every midpoint of an interval starting at a finite
    nonzero [a] is [a] itself. *)
Lemma midpoint_zero_step s m e i :
  0 <= i <= int_max ->
  midpoint (S754_finite s m e) F32.zero i = S754_finite s m e.
Proof.
  intros Hi. unfold midpoint.
  destruct (add_half_finite i Hi) as (mi & ei & ->).
  reflexivity.
Qed.

Lemma map_constant_repeat {A B : Type} (g : A -> B) (c : B) : forall l,
  (forall x, In x l -> g x = c) -> map g l = repeat c (length l).
Proof.
  induction l as [| x l IH]; intros Hg; [reflexivity |].
  cbn [map repeat length]. rewrite (Hg x) by (left; reflexivity).
  f_equal. apply IH. intros y Hy. apply Hg. right. exact Hy.
Qed.

(** X7. An interval reduced to one finite nonzero point [a = b]: for
    [1 <= n <= INT_MAX] the step is [+0], the integrand is called [n] times,
    each time at [a], and the value returned is the accumulated sum times
    [+0], a zero whenever that sum is finite. *)
Theorem degenerate_interval f s m e n k :
  1 <= n <= int_max ->
  let a := S754_finite s m e in
  let total := Nat.iter (Z.to_nat n) (fun acc => (acc + f a k)%f32) F32.zero in
  numericalIntegration f a a n k =
    {| result := (total * F32.zero)%f32;
       evaluations := repeat (a, k) (Z.to_nat n) |} /\
  (F32.is_finite total = true ->
   F32.is_zero (result (numericalIntegration f a a n k)) = true).
Proof.
  intros Hn a total.
  assert (Hdx : ((a - a) / F32.of_int n)%f32 = F32.zero).
  { unfold a. rewrite sub_self_finite.
    destruct (of_int_finite n) as (mn & en & ->);
      [lia | unfold in_int, int_min, int_max in *; lia |].
    destruct (n <? 0) eqn:Hneg; [apply Z.ltb_lt in Hneg; lia | reflexivity]. }
  assert (Hmid : forall i, In i (indices n) -> midpoint a F32.zero i = a).
  { intros i Hi. apply in_indices in Hi. apply midpoint_zero_step. lia. }
  pose proof (result_accumulate f a a n k) as Hr.
  pose proof (evaluations_midpoints f a a n k) as He.
  cbn zeta in Hr, He. rewrite Hdx in Hr, He.
  rewrite (accumulate_ext f (fun _ _ => f a k)) in Hr
    by (intros i Hi; rewrite (Hmid i Hi); reflexivity).
  rewrite accumulate_constant, length_indices in Hr. fold total in Hr.
  assert (Hev : map (fun i => (midpoint a F32.zero i, k)) (indices n) =
                repeat (a, k) (Z.to_nat n)).
  { rewrite <- (length_indices n). apply map_constant_repeat.
    intros i Hi. rewrite (Hmid i Hi). reflexivity. }
  rewrite Hev in He. split.
  - destruct (numericalIntegration f a a n k) as [r ev].
    cbn [result evaluations] in Hr, He. rewrite Hr, He. reflexivity.
  - rewrite Hr. destruct total; cbn; congruence.
Qed.

Lemma degenerate_interval_witness :
  let a := S754_finite false 8388608 (-23) in
  let total :=
    Nat.iter (Z.to_nat 3) (fun acc => (acc + a)%f32) F32.zero in
  numericalIntegration (fun x _ => x) a a 3 0 =
    {| result := (total * F32.zero)%f32;
       evaluations := repeat (a, 0) (Z.to_nat 3) |} /\
  (F32.is_finite total = true ->
   F32.is_zero (result (numericalIntegration (fun x _ => x) a a 3 0)) = true).
Proof.
  apply (degenerate_interval (fun x _ => x) false 8388608 (-23) 3 0).
  unfold int_max. lia.
Defined.

(** ** Further properties of the driver *)

Lemma argv_at_app argv extra i :
  (i < length argv)%nat -> argv_at (argv ++ extra) i = argv_at argv i.
Proof. intros Hi. unfold argv_at. apply app_nth1. exact Hi. Qed.

(** X8. Arguments after the fifth are ignored: a run with at least five
    arguments and the same run with more arguments appended have the same
    exit code and the same events. *)
Theorem extra_arguments_ignored pf argv extra :
  (6 <= length argv)%nat ->
  run pf (argv ++ extra) = run pf argv.
Proof.
  intros Hlen.
  assert (Hlen' : (6 <= length (argv ++ extra))%nat).
  { rewrite length_app. lia. }
  assert (Hat : forall i, (i < 6)%nat ->
            argv_at (argv ++ extra) i = argv_at argv i).
  { intros i Hi. apply argv_at_app. lia. }
  assert (Hid : arg_functionId pf (argv ++ extra) = arg_functionId pf argv).
  { unfold arg_functionId. rewrite Hat by lia. reflexivity. }
  assert (Hpe : parse_events (argv ++ extra) = parse_events argv).
  { unfold parse_events. rewrite !Hat by lia. reflexivity. }
  destruct (select (arg_functionId pf argv)) as [g |] eqn:Hsel.
  - rewrite (run_selected pf argv g Hlen Hsel).
    rewrite (run_selected pf (argv ++ extra) g Hlen')
      by (rewrite Hid; exact Hsel).
    unfold arg_a, arg_b, arg_n, arg_intensity.
    rewrite Hpe, !Hat by lia. reflexivity.
  - rewrite (run_rejected pf argv Hlen Hsel).
    rewrite (run_rejected pf (argv ++ extra) Hlen')
      by (rewrite Hid; exact Hsel).
    rewrite Hpe. reflexivity.
Qed.

Lemma extra_arguments_ignored_witness :
  run sample_platform
    (["prog"; "1"; "0"; "1"; "4"; "0"]%string ++ ["more"; "words"]%string)%list
  =
  run sample_platform ["prog"; "1"; "0"; "1"; "4"; "0"]%string.
Proof.
  apply (extra_arguments_ignored sample_platform
           ["prog"; "1"; "0"; "1"; "4"; "0"]%string ["more"; "words"]%string).
  cbn. lia.
Defined.

(** X9. Every run ends in one of two ways: it returns [0], has written to
    the standard output and nothing to the standard error; or it returns
    [-1], has written to the standard error and nothing to the standard
    output, has made no integration and has not read the clock. *)
Theorem run_succeeds_or_reports pf argv :
  let out := run pf argv in
  (exit_code out = 0 /\
   stdout_of (trace out) <> [] /\ stderr_of (trace out) = EmptyString) \/
  (exit_code out = -1 /\
   stderr_of (trace out) <> EmptyString /\ stdout_of (trace out) = [] /\
   integrations_of (trace out) = [] /\ clock_readings_of (trace out) = []).
Proof.
  intros out. unfold out.
  destruct (Nat.lt_ge_cases (length argv) 6) as [Hshort | Hlen].
  - right. destruct argv as [| prog rest].
    + rewrite run_without_program_name. repeat split. cbn. discriminate.
    + rewrite run_usage by (cbn [length] in *; lia).
      repeat split. cbn. discriminate.
  - destruct (select (arg_functionId pf argv)) as [g |] eqn:Hsel.
    + left. rewrite (run_selected pf argv g Hlen Hsel).
      repeat split. cbn. discriminate.
    + right. rewrite (run_rejected pf argv Hlen Hsel).
      repeat split. cbn. discriminate.
Qed.

(** X10. On a successful run the clock is read exactly twice, and the only
    thing that happens between the two readings is the call of the
    integrator: the five arguments are parsed before the first reading, and
    everything written to the standard output is written after the second. *)
Theorem timing_brackets_integration pf argv :
  (6 <= length argv)%nat ->
  In (arg_functionId pf argv) [1; 2; 3; 4] ->
  exists g r,
    select (arg_functionId pf argv) = Some g /\
    r = numericalIntegration (integrand_of pf g) (arg_a pf argv)
          (arg_b pf argv) (arg_n pf argv) (arg_intensity pf argv) /\
    trace (run pf argv) =
      parse_events argv ++
      [ev_now (clock pf 0);
       ev_integrate g (arg_a pf argv) (arg_b pf argv) (arg_n pf argv)
         (arg_intensity pf argv) r;
       ev_now (clock pf 1)] ++
      map ev_cout (stdout_of (trace (run pf argv))) /\
    clock_readings_of (trace (run pf argv)) = [clock pf 0; clock pf 1].
Proof.
  intros Hlen Hin.
  destruct (select (arg_functionId pf argv)) as [g |] eqn:Hsel.
  - exists g. eexists. split; [reflexivity |]. split; [reflexivity |].
    rewrite (run_selected pf argv g Hlen Hsel). split; reflexivity.
  - apply select_none in Hsel. contradiction.
Qed.

Lemma timing_brackets_integration_witness :
  let pf := sample_platform in
  let argv := ["prog"; "1"; "0"; "1"; "4"; "0"]%string in
  exists g r,
    select (arg_functionId pf argv) = Some g /\
    r = numericalIntegration (integrand_of pf g) (arg_a pf argv)
          (arg_b pf argv) (arg_n pf argv) (arg_intensity pf argv) /\
    trace (run pf argv) =
      parse_events argv ++
      [ev_now (clock pf 0);
       ev_integrate g (arg_a pf argv) (arg_b pf argv) (arg_n pf argv)
         (arg_intensity pf argv) r;
       ev_now (clock pf 1)] ++
      map ev_cout (stdout_of (trace (run pf argv))) /\
    clock_readings_of (trace (run pf argv)) = [clock pf 0; clock pf 1].
Proof.
  intros pf argv.
  apply (timing_brackets_integration pf argv).
  - cbn. lia.
  - vm_compute. left. reflexivity.
Defined.

(** X11. On a successful run the integrand selected is called
    [max(n, 0)] times, [n] being the fourth argument as parsed, and every
    call receives the fifth argument as parsed for its intensity. *)
Theorem run_calls_integrand pf argv :
  (6 <= length argv)%nat ->
  In (arg_functionId pf argv) [1; 2; 3; 4] ->
  exists g a b r,
    integrations_of (trace (run pf argv)) =
      [ev_integrate g a b (arg_n pf argv) (arg_intensity pf argv) r] /\
    r = numericalIntegration (integrand_of pf g) a b (arg_n pf argv)
          (arg_intensity pf argv) /\
    length (evaluations r) = Z.to_nat (arg_n pf argv) /\
    Forall (fun call => snd call = arg_intensity pf argv) (evaluations r).
Proof.
  intros Hlen Hin.
  destruct (select (arg_functionId pf argv)) as [g |] eqn:Hsel.
  - exists g, (arg_a pf argv), (arg_b pf argv). eexists.
    rewrite (run_selected pf argv g Hlen Hsel).
    split; [reflexivity |]. split; [reflexivity |].
    rewrite evaluations_midpoints. split.
    + rewrite length_map. apply length_indices.
    + apply Forall_map, Forall_forall. intros i _. reflexivity.
  - apply select_none in Hsel. contradiction.
Qed.

Lemma run_calls_integrand_witness :
  let pf := sample_platform in
  let argv := ["prog"; "1"; "0"; "1"; "4"; "7"]%string in
  exists g a b r,
    integrations_of (trace (run pf argv)) =
      [ev_integrate g a b (arg_n pf argv) (arg_intensity pf argv) r] /\
    r = numericalIntegration (integrand_of pf g) a b (arg_n pf argv)
          (arg_intensity pf argv) /\
    length (evaluations r) = Z.to_nat (arg_n pf argv) /\
    Forall (fun call => snd call = arg_intensity pf argv) (evaluations r).
Proof.
  intros pf argv.
  apply (run_calls_integrand pf argv).
  - cbn. lia.
  - vm_compute. left. reflexivity.
Defined.

(** X12. The driver does not check the sample count: a run with a valid
    [functionId] whose fourth argument parses to [0] succeeds, returning [0]
    and writing NaN for the result. *)
Theorem zero_samples_print_nan pf argv :
  (6 <= length argv)%nat ->
  In (arg_functionId pf argv) [1; 2; 3; 4] ->
  arg_n pf argv = 0 ->
  exit_code (run pf argv) = 0 /\
  stdout_of (trace (run pf argv)) =
    [out_float {| precision := 15; field := ff_default |} S754_nan;
     out_text " ";
     out_seconds {| precision := 6; field := ff_fixed |}
       (clock pf 1 - clock pf 0);
     out_endl].
Proof.
  intros Hlen Hin Hn.
  destruct (select (arg_functionId pf argv)) as [g |] eqn:Hsel.
  - rewrite (run_selected pf argv g Hlen Hsel). split; [reflexivity |].
    cbn [trace stdout_of flat_map parse_events app].
    rewrite Hn, result_accumulate. cbn [indices Z.to_nat indices_from seq map].
    unfold accumulate. cbn [fold_left]. rewrite zero_times_zero_step.
    reflexivity.
  - apply select_none in Hsel. contradiction.
Qed.

Lemma zero_samples_print_nan_witness :
  let pf := sample_platform in
  let argv := ["prog"; "1"; "0"; "1"; "0"; "0"]%string in
  exit_code (run pf argv) = 0 /\
  stdout_of (trace (run pf argv)) =
    [out_float {| precision := 15; field := ff_default |} S754_nan;
     out_text " ";
     out_seconds {| precision := 6; field := ff_fixed |}
       (clock pf 1 - clock pf 0);
     out_endl].
Proof.
  intros pf argv.
  apply (zero_samples_print_nan pf argv).
  - cbn. lia.
  - vm_compute. left. reflexivity.
  - vm_compute. reflexivity.
Defined.
